(* ====================================================================== *)
(* Finite dimensional algebras with basis                                  *)
(*                                                                         *)
(* A shallow embedding of                                                  *)
(*   src/sage/categories/finite_dimensional_algebras_with_basis.py         *)
(* (ParentMethods: radical_basis, principal_ideal,                         *)
(* orthogonal_idempotents_central_mod_radical, idempotent_lift,            *)
(* cartan_invariants_matrix, isotypic_projective_modules, peirce_summand,  *)
(* peirce_decomposition, is_identity_decomposition_into_orthogonal_-       *)
(* idempotents, is_commutative; ElementMethods: to_matrix, __invert__;     *)
(* Cellular.ParentMethods: cellular_involution) and the properties of      *)
(* these methods.                                                          *)
(*                                                                         *)
(* Algebras are MathComp rings; finite dimensional algebras with basis     *)
(* over a field are MathComp's falgType.  Python exceptions are values of  *)
(* [exn]; a method that may raise or loop returns a [result].              *)
(* ====================================================================== *)

From HB Require Import structures.
From Stdlib Require Import String.
From mathcomp Require Import boot algebra.
From mathcomp Require Import vector falgebra.

Set Warnings "-deprecated".
Set Implicit Arguments.
Unset Strict Implicit.
Unset Printing Implicit Defensive.

Import GRing.Theory.
Local Open Scope ring_scope.

(* ---------------------------------------------------------------------- *)
(* Python exceptions and results                                           *)
(* ---------------------------------------------------------------------- *)

(* The exception classes raised or caught by the methods below. *)
Variant exn_class : Set :=
  | ValueError
  | NotImplementedError
  | TypeError
  | AttributeError
  | IndexError
  | ZeroDivisionError.

(* An exception: its class, the format string of its message and the values
   substituted for the "%s" of the format ([::] for a plain message). *)
Record exn (E : Type) : Type :=
  Exn { exn_cls : exn_class; exn_fmt : string; exn_args : seq E }.

(* The result of a call: a returned value, a raised exception, or
   [Pending] when the fuel given to a while loop ran out before its exit. *)
Variant result (E T : Type) : Type :=
  | Return of T
  | Raise of exn E
  | Pending.

Arguments Return {E T} _.
Arguments Raise {E T} _.
Arguments Pending {E T}.

Definition bind (E T U : Type) (r : result E T) (k : T -> result E U) :
  result E U :=
  match r with
  | Return v => k v
  | Raise e => Raise e
  | Pending => Pending
  end.

Notation "'let?' x ':=' r 'in' k" := (bind r (fun x => k))
  (at level 200, x name, r at level 100, k at level 200,
   format "'[v' 'let?'  x  ':='  r  'in' '/' k ']'").

(* [for x in l: out.append(body(x))], stopping at the first exception. *)
Fixpoint mapM (E T U : Type) (body : T -> result E U) (l : seq T) :
  result E (seq U) :=
  match l with
  | [::] => Return [::]
  | x :: l' =>
      let? y := body x in
      let? ys := mapM body l' in
      Return (y :: ys)
  end.

(* ---------------------------------------------------------------------- *)
(* ParentMethods, ring level                                               *)
(* ---------------------------------------------------------------------- *)

Section Decomposition.

Variable A : pzRingType.

(* [self.sum(l)]: the elements are added from the left, starting at zero. *)
Definition algebra_sum (l : seq A) : A := foldl +%R 0 l.

(* [enumerate(l)] *)
Definition enumerate (T : Type) (l : seq T) : seq (nat * T) :=
  zip (iota 0 (size l)) l.

(* return (self.sum(l) == self.one()
           and all(e*e == e for e in l)
           and all(e*f == 0 and f*e == 0 for i, e in enumerate(l)
                                         for f in l[:i])) *)
Definition is_identity_decomposition_into_orthogonal_idempotents
  (l : seq A) : bool :=
  [&& algebra_sum l == 1,
      all (fun e => e * e == e) l
    & all (fun ie : nat * A =>
             all (fun f => (ie.2 * f == 0) && (f * ie.2 == 0)) (take ie.1 l))
          (enumerate l)].

(* The test made on an element [e] and an earlier element [f]. *)
Definition orthogonal_to_earlier (f e : A) : bool :=
  (e * f == 0) && (f * e == 0).

End Decomposition.

Section IdempotentLifting.

(* The algebra [self] and its semisimple quotient, with the two maps
   [retract] and [lift] of the quotient. *)
Variables A S : pzRingType.
Variable retract : {rmorphism A -> S}.
Variable lift : S -> A.

(* Loop body of idempotent_lift: x = (one - (one - x**2)**2) *)
Definition refine (x : A) : A := 1 - (1 - x ^+ 2) ^+ 2.

(* x_prev = None
   while x != x_prev:
       tmp = x
       x = (one - (one - x**2)**2)
       x_prev = tmp
   return x *)
Fixpoint idempotent_lift_loop (fuel : nat) (x : A) (x_prev : option A) :
  result S A :=
  if Some x != x_prev then
    if fuel is fuel'.+1 then idempotent_lift_loop fuel' (refine x) (Some x)
    else Pending
  else Return x.

(* The argument of idempotent_lift is an element of [self], or an element of
   the quotient, which is replaced by a lift:
     if not self.is_parent_of(x):
         x = x.lift() *)
Definition lift_argument (arg : A + S) : A :=
  match arg with inl a => a | inr s => lift s end.

(* ValueError("%s does not retract to an idempotent."%p) *)
Definition not_idempotent_error (p : S) : exn S :=
  Exn ValueError "%s does not retract to an idempotent." [:: p].

Definition idempotent_lift (fuel : nat) (arg : A + S) : result S A :=
  let x := lift_argument arg in
  let p := retract x in
  if p * p != p then Raise (not_idempotent_error p)
  else idempotent_lift_loop fuel x None.

(* [self.semisimple_quotient().central_orthogonal_idempotents()]: a method
   of the category of semisimple algebras, taken as a parameter. *)
Variable central_orthogonal_idempotents : seq S.

(* idempotents = []
   f = self.zero()
   for g in self.semisimple_quotient().central_orthogonal_idempotents():
       fi = self.idempotent_lift((one - f) * g.lift() * (one - f))
       idempotents.append(fi)
       f = f + fi
   return tuple(idempotents) *)
Fixpoint orthogonal_idempotents_loop (fuel : nat) (gs : seq S)
  (idempotents : seq A) (f : A) : result S (seq A) :=
  match gs with
  | [::] => Return idempotents
  | g :: gs' =>
      let? fi := idempotent_lift fuel (inl ((1 - f) * lift g * (1 - f))) in
      orthogonal_idempotents_loop fuel gs' (rcons idempotents fi) (f + fi)
  end.

Definition orthogonal_idempotents_central_mod_radical (fuel : nat) :
  result S (seq A) :=
  orthogonal_idempotents_loop fuel central_orthogonal_idempotents [::] 0.

End IdempotentLifting.

(* ---------------------------------------------------------------------- *)
(* Finite dimensional algebras with basis over a field                     *)
(* ---------------------------------------------------------------------- *)

(* An exception raised by a collaborator (linear algebra, coercions), of
   which only the class matters here. *)
Definition external_error (E : Type) (cls : exn_class) : exn E :=
  Exn cls EmptyString [::].

(* The [side] argument of principal_ideal and to_matrix: 'left' or 'right'. *)
Variant side : Set := Left | Right.

Section FiniteDimensionalAlgebra.

Variables (K : fieldType) (A : falgType K).

(* [self.dimension()] and [self.basis()], a basis of the whole algebra. *)
Definition dimension : nat := \dim {:A}.
Definition algebra_basis : dimension.-tuple A := vbasis {:A}.

(* [x.to_vector()] (also [vector(x)]) and [self.from_vector(v)]. *)
Definition to_vector (x : A) : 'cV[K]_dimension :=
  \col_i coord algebra_basis i x.

Definition from_vector (v : 'cV[K]_dimension) : A :=
  \sum_i v i 0 *: algebra_basis`_i.

(* [self.term(k, c)] *)
Definition term (k : 'I_dimension) (c : K) : A := c *: algebra_basis`_k.

(* [x.monomial_coefficients()]: the nonzero coefficients of [x], by key. *)
Definition monomial_coefficients (x : A) : seq ('I_dimension * K) :=
  [seq (i, coord algebra_basis i x) |
     i <- enum 'I_dimension & coord algebra_basis i x != 0].

(* return self.submodule([(a * b if side=='right' else b * a)
                          for b in self.basis()]) *)
Definition principal_ideal (a : A) (s : side) : {vspace A} :=
  span [seq (if s is Right then a * b else b * a) | b <- algebra_basis].

(* B = self.basis()
   phi = self.module_morphism(on_basis=lambda k: ei * B[k] * ej,
                              codomain=self, triangular='lower')
   ideal = phi.matrix(side='right').image()
   return self.submodule([self.from_vector(v) for v in ideal.basis()],
                         already_echelonized=True)
   The rows of phi.matrix(side='right') are the images of the basis; the
   submodule is the one they span. *)
Definition peirce_summand (ei ej : A) : {vspace A} :=
  span [seq ei * b * ej | b <- algebra_basis].

(* ElementMethods.to_matrix, with base_ring=None:
   basis = self.parent().basis()
   action_left = action
   if side == 'right':
       action = lambda x: action_left(basis[x], self)
   else:
       action = lambda x: action_left(self, basis[x])
   endo = self.parent().module_morphism(on_basis=action,
                                        codomain=self.parent())
   return endo.matrix(base_ring=base_ring)
   The columns of the matrix are the images of the basis. *)
Definition to_matrix (x : A) (action : A -> A -> A) (s : side) :
  'M[K]_dimension :=
  \matrix_(i, j) coord algebra_basis i
     (if s is Right then action algebra_basis`_j x
      else action x algebra_basis`_j).

(* on_left_matrix = to_matrix, called with the default arguments *)
Definition on_left_matrix (x : A) : 'M[K]_dimension := to_matrix x *%R Left.

Section Invert.

(* [alg.one_basis()]: a key, None, or an exception. *)
Variable one_basis : result A (option 'I_dimension).

(* The base ring R, inside its field of fractions K (all of K when R is a
   field), and the linear solver [A.solve_right(e)] over K. *)
Variable base_ring : pred K.
Variable solve_right :
  'M[K]_dimension -> 'cV[K]_dimension -> option 'cV[K]_dimension.

(* ValueError("cannot invert self (= %s)" % self) *)
Definition cannot_invert (x : A) : exn A :=
  Exn ValueError "cannot invert self (= %s)" [:: x].

(* [R(c)] *)
Definition coerce (c : K) : result A K :=
  if c \in base_ring then Return c else Raise (external_error A TypeError).

(* [v.change_ring(R)] *)
Definition change_ring (v : 'cV[K]_dimension) : result A 'cV[K]_dimension :=
  if [forall i, v i 0 \in base_ring] then Return v
  else Raise (external_error A TypeError).

(* try: ob = alg.one_basis()
   except (AttributeError, TypeError, ValueError): pass *)
Definition try_one_basis : result A (option 'I_dimension) :=
  match one_basis with
  | Raise e =>
      match exn_cls e with
      | AttributeError | TypeError | ValueError => Return None
      | _ => Raise e
      end
  | r => r
  end.

(* try: ... except (ValueError, TypeError):
       raise ValueError("cannot invert self (= %s)" % self) *)
Definition or_cannot_invert (x : A) (r : result A A) : result A A :=
  match r with
  | Raise e =>
      match exn_cls e with
      | ValueError | TypeError => Raise (cannot_invert x)
      | _ => Raise e
      end
  | r => r
  end.

(* e = alg.one().to_vector()
   A = self.to_matrix()
   try:
       inv = A.solve_right(e)
       inv.change_ring(R)
       return alg.from_vector(inv)
   except (ValueError, TypeError): raise ValueError(...) *)
Definition invert_by_solving (x : A) : result A A :=
  let e := to_vector 1 in
  let mat := to_matrix x *%R Left in
  or_cannot_invert x
    (let? inv := (if solve_right mat e is Some v then Return v
                  else Raise (external_error A ValueError)) in
     let? _ := change_ring inv in
     Return (from_vector inv)).

(* ElementMethods.__invert__ *)
Definition invert (x : A) : result A A :=
  let? ob := try_one_basis in
  let mc := monomial_coefficients x in
  match ob with
  | Some ob =>
      if (size mc == 1%N) && (ob \in [seq kc.1 | kc <- mc]) then
        or_cannot_invert x
          (let? c := coerce (coord algebra_basis ob x)^-1 in
           Return (term ob c))
      else invert_by_solving x
  | None => invert_by_solving x
  end.

End Invert.

End FiniteDimensionalAlgebra.

(* The result of [Integer.sqrt()] on a dimension: the nonnegative square
   root of a natural number, exact also when it is not an integer. *)
Record surd : Set := Surd { surd_square : nat }.

Definition surd_mul (a b : surd) : surd :=
  Surd (surd_square a * surd_square b).

(* [ZZ(d / r)] for a dimension [d] and a square root [r], as Matrix(ZZ, ...)
   converts its entries: the integer m with m * r = d. *)
Definition integer_quotient (E : Type) (d : nat) (r : surd) : result E int :=
  if surd_square r == 0%N then Raise (external_error E ZeroDivisionError)
  else
    match [seq m <- iota 0 d.+1 | m * m * surd_square r == d * d]%N with
    | m :: _ => Return (Posz m)
    | [::] => Raise (external_error E TypeError)
    end.

(* An integer matrix, with the flag set by [set_immutable()]. *)
Record integer_matrix : Type := IntegerMatrix {
  nrows : nat;
  ncols : nat;
  entries : seq (seq int);
  is_immutable : bool
}.

Section PeirceDecomposition.

Variables (K : fieldType) (A S : falgType K).
Variable retract : {rmorphism A -> S}.
Variable lift : S -> A.

(* [self.semisimple_quotient().central_orthogonal_idempotents()] *)
Variable central_orthogonal_idempotents : seq S.

(* if idempotents is None:
       idempotents = self.orthogonal_idempotents_central_mod_radical()
   if check:
       if not self.is_identity_decomposition_into_orthogonal_idempotents(
                  idempotents):
           raise ValueError("Not a decomposition of the identity into
                             orthogonal idempotents")
   return [[self.peirce_summand(ei, ej) for ej in idempotents]
           for ei in idempotents] *)
Definition peirce_decomposition (fuel : nat) (idempotents : option (seq A))
  (check : bool) : result S (seq (seq {vspace A})) :=
  let? idempotents :=
    (if idempotents is Some l then Return l
     else orthogonal_idempotents_central_mod_radical retract lift
            central_orthogonal_idempotents fuel) in
  if check
     && ~~ is_identity_decomposition_into_orthogonal_idempotents idempotents
  then
    Raise (Exn ValueError
      "Not a decomposition of the identity into orthogonal idempotents" [::])
  else
    Return [seq [seq peirce_summand ei ej | ej <- idempotents]
           | ei <- idempotents].

(* A_quo = self.semisimple_quotient()
   idempotents_quo = A_quo.central_orthogonal_idempotents()
   dim_simples = [A_quo.principal_ideal(e).dimension().sqrt()
                  for e in idempotents_quo]
   idempotents = self.orthogonal_idempotents_central_mod_radical()
   def C(i, j):
       summand = self.peirce_summand(idempotents[i], idempotents[j])
       return summand.dimension() / (dim_simples[i] * dim_simples[j])
   m = Matrix(ZZ, len(idempotents), C)
   m.set_immutable()
   return m *)
Definition cartan_invariants_matrix (fuel : nat) : result S integer_matrix :=
  let idempotents_quo := central_orthogonal_idempotents in
  let dim_simples :=
    [seq Surd (\dim (principal_ideal e Left)) | e <- idempotents_quo] in
  let? idempotents :=
    orthogonal_idempotents_central_mod_radical retract lift
      central_orthogonal_idempotents fuel in
  let C i j :=
    let summand := peirce_summand (nth 0 idempotents i) (nth 0 idempotents j) in
    integer_quotient S (\dim summand)
      (surd_mul (nth (Surd 0) dim_simples i) (nth (Surd 0) dim_simples j)) in
  let n := size idempotents in
  let? rows := mapM (fun i => mapM (fun j => C i j) (iota 0 n)) (iota 0 n) in
  Return (IntegerMatrix n n rows true).

End PeirceDecomposition.

(* ---------------------------------------------------------------------- *)
(* ParentMethods.radical_basis                                             *)
(* ---------------------------------------------------------------------- *)

(* A Python dict, as the list of its items in insertion order. *)
Section Dict.

Variables (Key : eqType) (V : Type).

(* d[k] = v *)
Fixpoint dict_set (d : seq (Key * V)) (k : Key) (v : V) : seq (Key * V) :=
  match d with
  | [::] => [:: (k, v)]
  | kv :: d' => if kv.1 == k then (k, v) :: d' else kv :: dict_set d' k v
  end.

(* d.get(k, default) *)
Fixpoint dict_get (d : seq (Key * V)) (k : Key) (default : V) : V :=
  match d with
  | [::] => default
  | kv :: d' => if kv.1 == k then kv.2 else dict_get d' k default
  end.

(* {k: v for (k, v) in items} *)
Definition dict_of (items : seq (Key * V)) : seq (Key * V) :=
  foldl (fun d kv => dict_set d kv.1 kv.2) [::] items.

End Dict.

Section RadicalBasis.

(* F = self.base_ring(), with F.is_field(), F.characteristic() and
   F.order(), where None stands for +Infinity. *)
Variable F : comNzRingType.
Variable is_field : bool.
Variable characteristic : nat.
Variable order : option nat.

(* The algebra: n = self.dimension() basis keys, the (key, coefficient)
   items of product_on_basis(i, j), and vector(self.one()).  An element is
   identified with its vector of coordinates by vector() and from_vector(). *)
Variable n : nat.
Variable product_on_basis : 'I_n -> 'I_n -> seq ('I_n * F).
Variable one_vector : 'cV[F]_n.

(* The collaborators: M.kernel().basis(), which is M.left_kernel().basis(),
   on a matrix given by its list of rows; hasattr(one, 'nth_root'),
   x.nth_root(s) and x**(1/s), None when they raise. *)
Variable kernel_basis : seq (seq F) -> seq (seq F).
Variable has_nth_root : bool.
Variable nth_root : F -> nat -> option F.
Variable fractional_power : F -> nat -> option F.

(* sum(...): Python adds from the left, starting from 0. *)
Definition python_sum (V : nmodType) (l : seq V) : V := foldl +%R 0 l.

(* The coefficient of the key [i] in an element given by its items. *)
Definition coefficient (i : 'I_n) (items : seq ('I_n * F)) : F :=
  python_sum [seq jc.2 | jc <- items & jc.1 == i].

(* b.on_left_matrix() for the basis element of key [k]: the columns are the
   products of that element with the basis elements. *)
Definition basis_on_left_matrix (k : 'I_n) : 'M[F]_n :=
  \matrix_(i, j) coefficient i (product_on_basis k j).

(* vector(F, l) and self.from_vector(vec) *)
Definition vector_of_seq (l : seq F) : 'cV[F]_n := \col_i nth 0 l i.

(* Characteristic 0:
   keys = list(self.basis().keys())
   cache = [{(i,j): c
       for i in keys
       for j,c in product_on_basis(y,i)}
       for y in keys]
   mat = [ [ sum(x.get((j, i), 0) * c for (i,j),c in y.items())
       for x in cache]
       for y in cache] *)
Definition trace_form_matrix : seq (seq F) :=
  let keys := enum 'I_n in
  let cache :=
    [seq dict_of (flatten [seq [seq ((i, jc.1), jc.2)
                               | jc <- product_on_basis y i] | i <- keys])
    | y <- keys] in
  [seq [seq python_sum [seq dict_get x (ijc.1.2, ijc.1.1) 0 * ijc.2 | ijc <- y]
       | x <- cache]
  | y <- cache].

(* if hasattr(self.base_ring().one(), 'nth_root'):
       root_fcn = lambda s, x : x.nth_root(s)
   else:
       root_fcn = lambda s, x : x**(1/s) *)
Definition root_fcn (s : nat) (x : F) : result unit F :=
  match (if has_nth_root then nth_root x s else fractional_power x s) with
  | Some r => Return r
  | None => Raise (external_error unit ValueError)
  end.

(* 1 < s < F.order() *)
Definition takes_roots (s : nat) : bool :=
  (1 < s)%N && (if order is Some q then (s < q)%N else true).

(* G = matrix([ [(-1)**s * (b*bb).characteristic_polynomial()[n-s]
                  for bb in BB] for b in B]) *)
Definition gram_matrix (s : nat) (B BB : seq 'M[F]_n) : seq (seq F) :=
  [seq [seq (-1) ^+ s * (char_poly (b *m bb))`_(n - s) | bb <- BB] | b <- B].

(* sum(ci*b for (ci,b) in zip(c,B)) *)
Definition combination (c : seq F) (B : seq 'M[F]_n) : 'M[F]_n :=
  python_sum [seq cb.1 *: cb.2 | cb <- zip c B].

(* while s <= n:
       BB = B + [I]
       G = matrix(...)
       C = G.left_kernel().basis()
       if 1 < s < F.order():
           C = [vector(F, [root_fcn(s, ci) for ci in c]) for c in C]
       B = [ sum(ci*b for (ci,b) in zip(c,B)) for c in C ]
       s = p * s *)
Fixpoint radical_loop (fuel : nat) (s : nat) (B : seq 'M[F]_n) :
  result unit (seq 'M[F]_n) :=
  if (s <= n)%N then
    if fuel is fuel'.+1 then
      let BB := B ++ [:: 1%:M] in
      let G := gram_matrix s B BB in
      let C := kernel_basis G in
      let? C := (if takes_roots s then mapM (mapM (root_fcn s)) C
                 else Return C) in
      let B := [seq combination c B | c <- C] in
      radical_loop fuel' (characteristic * s)%N B
    else Pending
  else Return B.

(* The left regular matrices of the basis elements:
   B = [b.on_left_matrix() for b in self.basis()] *)
Definition regular_matrices : seq 'M[F]_n :=
  [seq basis_on_left_matrix k | k <- enum 'I_n].

(* raise NotImplementedError("the base ring must be a field") *)
Definition not_a_field_error : exn unit :=
  Exn NotImplementedError "the base ring must be a field" [::].

Definition radical_basis (fuel : nat) : result unit (seq 'cV[F]_n) :=
  if ~~ is_field then Raise not_a_field_error
  else
    let p := characteristic in
    if p == 0%N then
      let mat := trace_form_matrix in
      let rad_basis := kernel_basis mat in
      Return [seq vector_of_seq vec | vec <- rad_basis]
    else
      let B := regular_matrices in
      (* I = B[0].parent().one() *)
      if B is [::] then Raise (external_error unit IndexError)
      else
        let? B := radical_loop fuel 1 B in
        let e := one_vector in
        let rad_basis := [seq b *m e | b <- B] in
        Return rad_basis.

(* The rounds of the characteristic p procedure, as they are described:
   the matrix G of a round, by its entries, with one row for each b of B and
   one column for each bb of B followed by the identity matrix; the kernel
   vectors, of which the s-th roots are taken when 1 < s < |F|; and the
   linear combinations of B that replace B. *)
Definition is_gram_matrix (s : nat) (B : seq 'M[F]_n) (G : seq (seq F)) :
  Prop :=
  size G = size B
  /\ forall i, (i < size B)%N ->
       size (nth [::] G i) = (size B).+1
       /\ forall j, (j < (size B).+1)%N ->
            nth 0 (nth [::] G i) j
            = (-1) ^+ s
              * (char_poly (nth 0 B i *m nth 0 (rcons B 1%:M) j))`_(n - s).

Definition are_roots (s : nat) (C C' : seq (seq F)) : Prop :=
  size C' = size C
  /\ forall k, (k < size C)%N ->
       size (nth [::] C' k) = size (nth [::] C k)
       /\ forall i, (i < size (nth [::] C k))%N ->
            root_fcn s (nth 0 (nth [::] C k) i)
            = Return (nth 0 (nth [::] C' k) i).

Inductive round (s : nat) (B : seq 'M[F]_n) : seq 'M[F]_n -> Prop :=
  Round G C' of is_gram_matrix s B G
    & (if takes_roots s then are_roots s (kernel_basis G) C'
       else C' = kernel_basis G) :
    round s B
      [seq \sum_(k < size B) nth 0 c k *: nth 0 B k | c <- C'].

Inductive rounds : nat -> seq 'M[F]_n -> seq 'M[F]_n -> Prop :=
  | rounds_exit s B of (n < s)%N : rounds s B B
  | rounds_step s B B' Bfinal of (s <= n)%N & round s B B'
      & rounds (characteristic * s) B' Bfinal : rounds s B Bfinal.

End RadicalBasis.

(* ---------------------------------------------------------------------- *)
(* ParentMethods: isotypic_projective_modules, is_commutative              *)
(* ---------------------------------------------------------------------- *)

Section IsotypicProjectiveModules.

Variables (K : fieldType) (A S : falgType K).
Variable retract : {rmorphism A -> S}.
Variable lift : S -> A.
Variable central_orthogonal_idempotents : seq S.

(* return [self.principal_ideal(e, side) for e in
           self.orthogonal_idempotents_central_mod_radical()] *)
Definition isotypic_projective_modules (fuel : nat) (s : side) :
  result S (seq {vspace A}) :=
  let? idempotents :=
    orthogonal_idempotents_central_mod_radical retract lift
      central_orthogonal_idempotents fuel in
  Return [seq principal_ideal e s | e <- idempotents].

End IsotypicProjectiveModules.

Section IsCommutative.

Variables (K : fieldType) (A : falgType K).

(* B = list(self.basis())
   try: # See if 1 is a basis element, if so, remove it
       B.remove(self.one())
   except ValueError:
       pass
   return all(b*bp == bp*b for i,b in enumerate(B) for bp in B[i+1:]) *)
Definition is_commutative : bool :=
  let B := rem 1 (algebra_basis A) in
  all (fun ib : nat * A =>
         all (fun bp => ib.2 * bp == bp * ib.2) (drop ib.1.+1 B))
      (enumerate B).

End IsCommutative.

(* ---------------------------------------------------------------------- *)
(* Cellular.ParentMethods.cellular_involution                              *)
(* ---------------------------------------------------------------------- *)

Section Cellular.

(* The cell poset, the indices of the cell modules and the base ring; an
   element of the cellular basis is given by the dict of its monomial
   coefficients, keyed by the triples (mu, s, t). *)
Variables (Lambda T : eqType) (R : nmodType).

(* When the algebra is its own cellular basis:
   M = x.monomial_coefficients(copy=False)
   return self._from_dict({(i[0], i[2], i[1]): M[i] for i in M},
                          remove_zeros=False) *)
Definition cellular_involution (M : seq (Lambda * T * T * R)) :
  seq (Lambda * T * T * R) :=
  dict_of [seq ((i.1.1, i.2, i.1.2), dict_get M i 0) | i <- [seq kv.1 | kv <- M]].

End Cellular.

(* ---------------------------------------------------------------------- *)
(* Collaborators from MathComp, and two example algebras                   *)
(* ---------------------------------------------------------------------- *)

Section LinearAlgebra.

Variable K : fieldType.

(* A.solve_right(e), by the pseudo-inverse of A. *)
Definition mx_solve_right (n : nat) (M : 'M[K]_n) (e : 'cV[K]_n) :
  option 'cV[K]_n :=
  if (e^T <= M^T)%MS then Some (e^T *m pinvmx M^T)^T else None.

(* G.left_kernel().basis() of a matrix given by its rows: the rows of a
   row base of the kernel matrix. *)
Definition mx_kernel_basis (G : seq (seq K)) : seq (seq K) :=
  let M : 'M[K]_(size G, size (head [::] G)) :=
    \matrix_(i, j) nth 0 (nth [::] G i) j in
  let B := row_base (kermx M) in
  [seq [seq B i j | j <- enum 'I_(size G)] | i <- enum 'I_(\rank (kermx M))].

End LinearAlgebra.

(* The integers modulo 4 and their quotient by the radical {0, 2}, the
   integers modulo 2. *)
Definition mod2 (x : 'Z_4) : 'Z_2 := inZp x.
Definition lift2 (x : 'Z_2) : 'Z_4 := inZp x.

Fact mod2_is_zmod_morphism : zmod_morphism mod2.
Proof.
move=> x y; apply/val_inj; rewrite /= /mod2.
by case: x => [[|[|[|[|x]]]] ?] //; case: y => [[|[|[|[|y]]]] ?].
Qed.

Fact mod2_is_monoid_morphism : monoid_morphism mod2.
Proof.
split=> [|x y]; apply/val_inj; rewrite /= /mod2 //.
by case: x => [[|[|[|[|x]]]] ?] //; case: y => [[|[|[|[|y]]]] ?].
Qed.

HB.instance Definition _ :=
  GRing.isZmodMorphism.Build 'Z_4 'Z_2 mod2 mod2_is_zmod_morphism.
HB.instance Definition _ :=
  GRing.isMonoidMorphism.Build 'Z_4 'Z_2 mod2 mod2_is_monoid_morphism.

(* The integers modulo 12 and their quotient by the radical {0, 6}, the
   integers modulo 6, whose central orthogonal idempotents are 3 and 4. *)
Definition mod6 (x : 'Z_12) : 'Z_6 := inZp x.
Definition lift6 (x : 'Z_6) : 'Z_12 := inZp x.

Fact mod6_is_zmod_morphism : zmod_morphism mod6.
Proof.
move=> x y; apply/val_inj; rewrite /= /mod6.
by case: x => [[|[|[|[|[|[|[|[|[|[|[|[|x]]]]]]]]]]]] ?] //; case: y => [[|[|[|[|[|[|[|[|[|[|[|[|y]]]]]]]]]]]] ?].
Qed.

Fact mod6_is_monoid_morphism : monoid_morphism mod6.
Proof.
split=> [|x y]; apply/val_inj; rewrite /= /mod6 //.
by case: x => [[|[|[|[|[|[|[|[|[|[|[|[|x]]]]]]]]]]]] ?] //; case: y => [[|[|[|[|[|[|[|[|[|[|[|[|y]]]]]]]]]]]] ?].
Qed.

HB.instance Definition _ :=
  GRing.isZmodMorphism.Build 'Z_12 'Z_6 mod6 mod6_is_zmod_morphism.
HB.instance Definition _ :=
  GRing.isMonoidMorphism.Build 'Z_12 'Z_6 mod6 mod6_is_monoid_morphism.

Definition central_idempotents6 : seq 'Z_6 := [:: 3%:R; 4%:R].

(* The algebra of the 2 x 2 matrices over the rationals, which is its own
   semisimple quotient, and its two diagonal idempotents. *)
Definition diagonal_idempotents : seq 'M[rat]_2 :=
  [:: delta_mx 0 0; delta_mx 1 1].

(* The product of two copies of the field of rationals: a semisimple
   algebra of dimension 2, with the central orthogonal idempotents (1, 0)
   and (0, 1). *)
HB.instance Definition _ := UnitAlgebra_isFalgebra.Build rat (rat^o * rat^o)%type.
Definition pair_idempotents : seq (rat^o * rat^o) := [:: (1, 0); (0, 1)].

(* ====================================================================== *)
(* Properties                                                              *)
(* ====================================================================== *)

Section DecompositionTheory.

Variable A : pzRingType.
Implicit Types (l : seq A) (e f : A).

Lemma foldl_addE l z : foldl +%R z l = z + \sum_(e <- l) e.
Proof.
elim: l z => [|x l IHl] z /=; first by rewrite big_nil addr0.
by rewrite IHl big_cons addrA.
Qed.

Lemma algebra_sumE l : algebra_sum l = \sum_(e <- l) e.
Proof. by rewrite /algebra_sum foldl_addE add0r. Qed.

Lemma enumerate_rcons (T : Type) (s : seq T) (x : T) :
  enumerate (rcons s x) = rcons (enumerate s) (size s, x).
Proof.
rewrite /enumerate size_rcons -addn1 iotaD add0n /= cats1 zip_rcons //.
by rewrite size_iota.
Qed.

Lemma enumerate_index l (ie : nat * A) : ie \in enumerate l -> (ie.1 < size l)%N.
Proof.
case: ie => i e /= /(nthP (0%N, e)) [k].
rewrite size_zip size_iota minnn => ltk.
by rewrite nth_zip ?size_iota // nth_iota // add0n => -[<- _].
Qed.

(* The double loop over [enumerate(l)] and [l[:i]] visits exactly the pairs
   made of an element and an earlier one. *)
Lemma earlier_pairsE l :
  all (fun ie : nat * A =>
         all (fun f => (ie.2 * f == 0) && (f * ie.2 == 0)) (take ie.1 l))
      (enumerate l)
  = pairwise (@orthogonal_to_earlier A) l.
Proof.
elim/last_ind: l => [|l x IHl] //.
rewrite enumerate_rcons all_rcons pairwise_rcons /= -cats1 take_size_cat //.
congr (_ && _); rewrite -IHl; apply: eq_in_all => ie /enumerate_index ltie.
by rewrite takel_cat // ltnW.
Qed.

Lemma is_identity_decompositionE l :
  is_identity_decomposition_into_orthogonal_idempotents l =
  [&& \sum_(e <- l) e == 1, all (fun e => e * e == e) l
    & pairwise (@orthogonal_to_earlier A) l].
Proof.
by rewrite /is_identity_decomposition_into_orthogonal_idempotents
           earlier_pairsE algebra_sumE.
Qed.

Lemma pairwise_orthogonalP l :
  reflect (forall i j, (i < size l)%N -> (j < size l)%N -> i != j ->
             nth 0 l i * nth 0 l j = 0)
          (pairwise (@orthogonal_to_earlier A) l).
Proof.
apply: (iffP (pairwiseP (0 : A))) => [orth i j lti ltj | orth i j lti ltj ltij].
  rewrite neq_ltn => /orP[] ltij.
    by have /andP[_ /eqP] := orth i j lti ltj ltij.
  by have /andP[/eqP] := orth j i ltj lti ltij.
rewrite /orthogonal_to_earlier !orth ?eqxx //.
  by rewrite neq_ltn ltij orbT.
by rewrite neq_ltn ltij.
Qed.

(* The predicate, in terms of the sum, the elements and the positions. *)
Lemma is_identity_decompositionP l :
  reflect [/\ \sum_(e <- l) e = 1,
               forall e, e \in l -> e * e = e
             & forall i j, (i < size l)%N -> (j < size l)%N -> i != j ->
                 nth 0 l i * nth 0 l j = 0]
          (is_identity_decomposition_into_orthogonal_idempotents l).
Proof.
rewrite is_identity_decompositionE; apply: (iffP and3P).
  case=> /eqP sum1 /allP idem /pairwise_orthogonalP orth.
  by split=> // e /idem /eqP.
case=> sum1 idem orth; split; first exact/eqP.
  by apply/allP => e /idem /eqP.
exact/pairwise_orthogonalP.
Qed.

(** C2.  For every finite list [l] of elements of the algebra,
    is_identity_decomposition_into_orthogonal_idempotents(l) is true if and
    only if the sum of [l] is the unit, every element of [l] is idempotent,
    and any two elements at distinct positions of [l] multiply to zero, in
    both orders.  The method is a pure boolean function of [l]. *)
Theorem is_identity_decomposition_correct l :
  is_identity_decomposition_into_orthogonal_idempotents l <->
  [/\ \sum_(e <- l) e = 1,
      forall e, e \in l -> e * e = e
    & forall i j, (i < size l)%N -> (j < size l)%N -> i != j ->
        nth 0 l i * nth 0 l j = 0 /\ nth 0 l j * nth 0 l i = 0].
Proof.
split=> [/is_identity_decompositionP[sum1 idem orth] | [sum1 idem orth]].
  by split=> // i j lti ltj neq_ij; split; apply: orth; rewrite // eq_sym.
by apply/is_identity_decompositionP; split=> // i j lti ltj /(orth i j lti ltj) [].
Qed.

Lemma orthogonal_to_earlier0l e : orthogonal_to_earlier 0 e.
Proof. by rewrite /orthogonal_to_earlier mulr0 mul0r eqxx. Qed.

Lemma orthogonal_to_earlier0r f : orthogonal_to_earlier f 0.
Proof. by rewrite /orthogonal_to_earlier mulr0 mul0r eqxx. Qed.

(** C10.  On the empty list the predicate is the test [0 == 1] of the
    algebra (the empty sum is zero), hence false in every algebra in which
    1 <> 0; and inserting the zero element at any position of a list leaves
    the result of the predicate unchanged. *)
Theorem is_identity_decomposition_nil_zero :
  [/\ is_identity_decomposition_into_orthogonal_idempotents ([::] : seq A)
        = (0 == 1 :> A),
      (1 != 0 :> A) ->
        is_identity_decomposition_into_orthogonal_idempotents ([::] : seq A)
        = false
    & forall l i,
        is_identity_decomposition_into_orthogonal_idempotents
          (take i l ++ 0 :: drop i l)
        = is_identity_decomposition_into_orthogonal_idempotents l].
Proof.
have nilE : is_identity_decomposition_into_orthogonal_idempotents
              ([::] : seq A) = (0 == 1 :> A).
  by rewrite is_identity_decompositionE big_nil /= andbT.
split=> // [neq10 | l i]; first by rewrite nilE eq_sym (negPf neq10).
rewrite -[in RHS](cat_take_drop i l) !is_identity_decompositionE.
rewrite !big_cat big_cons /= add0r !all_cat /= mulr0 eqxx /=.
rewrite !pairwise_cat /= allrel_consr.
have -> : all (fun f => orthogonal_to_earlier f 0) (take i l).
  by apply/allP => f _; apply: orthogonal_to_earlier0r.
have -> // : all (fun e => orthogonal_to_earlier 0 e) (drop i l).
by apply/allP => e _; apply: orthogonal_to_earlier0l.
Qed.

End DecompositionTheory.

(* ---------------------------------------------------------------------- *)
(* The refinement map x |-> 1 - (1 - x^2)^2                                *)
(* ---------------------------------------------------------------------- *)

Section RefineTheory.

Variable A : pzRingType.
Implicit Types x y z e f : A.

(* [y] commutes with whatever commutes with [x]; this holds for every
   polynomial in [x], and two such elements commute. *)
Definition poly_in x y : Prop := forall z, GRing.comm x z -> GRing.comm y z.

Lemma poly_in_id x : poly_in x x.
Proof. by []. Qed.

Lemma poly_in1 x : poly_in x 1.
Proof. by move=> z _; apply/commr_sym/commr1. Qed.

Lemma poly_inD x y1 y2 : poly_in x y1 -> poly_in x y2 -> poly_in x (y1 + y2).
Proof.
by move=> p1 p2 z cxz; apply/commr_sym/commrD; apply/commr_sym; auto.
Qed.

Lemma poly_inN x y : poly_in x y -> poly_in x (- y).
Proof. by move=> p z cxz; apply/commr_sym/commrN/commr_sym; auto. Qed.

Lemma poly_inB x y1 y2 : poly_in x y1 -> poly_in x y2 -> poly_in x (y1 - y2).
Proof. by move=> p1 p2; apply: poly_inD => //; apply: poly_inN. Qed.

Lemma poly_inM x y1 y2 : poly_in x y1 -> poly_in x y2 -> poly_in x (y1 * y2).
Proof.
by move=> p1 p2 z cxz; apply/commr_sym/commrM; apply/commr_sym; auto.
Qed.

Lemma poly_inX x y n : poly_in x y -> poly_in x (y ^+ n).
Proof. by move=> p z cxz; apply/commr_sym/commrX/commr_sym; auto. Qed.

Lemma poly_in_comm x y1 y2 : poly_in x y1 -> poly_in x y2 -> GRing.comm y1 y2.
Proof. by move=> p1 p2; apply/p1/commr_sym/p2. Qed.

Hint Resolve poly_in_id poly_in1 poly_inD poly_inN poly_inB poly_inM
  poly_inX : poly_in.

(* The defect of idempotency of [x]. *)
Definition defect x : A := x * (1 - x).

Lemma defect0P x : defect x = 0 <-> x * x = x.
Proof.
rewrite /defect mulrBr mulr1; split=> [/subr0_eq //|->]; exact: subrr.
Qed.

(* The cofactor of the squared defect in the defect of [refine x]. *)
Definition cofactor x : A := (1 + (1 - x ^+ 2)) * (1 + x) ^+ 2.

Lemma poly_in_defect x : poly_in x (defect x).
Proof. by rewrite /defect; auto with poly_in. Qed.

Lemma poly_in_cofactor x : poly_in x (cofactor x).
Proof. by rewrite /cofactor; auto 8 with poly_in. Qed.

Lemma refine_factor x : refine x = x ^+ 2 * (1 + (1 - x ^+ 2)).
Proof.
rewrite /refine; set u := 1 - x ^+ 2.
have -> : x ^+ 2 = 1 - u by rewrite /u subKr.
by rewrite -[1 - u ^+ 2]opprB subr_sqr_1 -mulNr opprB [u + 1]addrC.
Qed.

Lemma refine_factor_comm x : refine x = (1 + (1 - x ^+ 2)) * x ^+ 2.
Proof.
rewrite refine_factor; apply: (@poly_in_comm x); auto 8 with poly_in.
Qed.

Lemma one_sub_refine x : 1 - refine x = ((1 - x) * (1 + x)) ^+ 2.
Proof.
rewrite /refine subKr; congr (_ ^+ 2).
by rewrite mulrDr mulr1 mulrBl mul1r addrA subrK expr2.
Qed.

(* The defect is squared by a refinement step, up to a commuting factor. *)
Lemma defect_refine x : defect (refine x) = defect x ^+ 2 * cofactor x.
Proof.
rewrite {1}/defect one_sub_refine refine_factor /defect /cofactor.
have cx (y1 y2 : A) : poly_in x y1 -> poly_in x y2 -> GRing.comm y1 y2.
  exact: poly_in_comm.
rewrite !exprMn_comm; try by apply: cx; auto with poly_in.
set w := 1 + _; set a := x ^+ 2; set b := (1 - x) ^+ 2; set c := (1 + x) ^+ 2.
have cwb : w * b = b * w by apply: cx; rewrite /w /b /a; auto 8 with poly_in.
by rewrite -[LHS]mulrA [w * _]mulrA cwb -[RHS]mulrA [b * (w * c)]mulrA.
Qed.

Lemma comm_defect_cofactor x n : GRing.comm (defect x ^+ n) (cofactor x).
Proof.
apply: (@poly_in_comm x); first exact/poly_inX/poly_in_defect.
exact: poly_in_cofactor.
Qed.

Lemma idempotent_refine x : x * x = x -> refine x = x.
Proof.
move=> xx; rewrite /refine [x ^+ 2]expr2 xx.
have -> : (1 - x) ^+ 2 = 1 - x.
  by rewrite expr2 mulrBr mulr1 mulrBl mul1r xx subrr subr0.
by rewrite subKr.
Qed.

(* A nilpotent defect stays nilpotent, with half the exponent. *)
Lemma defect_refine_nilpotent x k :
  defect x ^+ (2 ^ k.+1) = 0 -> defect (refine x) ^+ (2 ^ k) = 0.
Proof.
move=> dx0; rewrite defect_refine exprMn_comm; first exact: comm_defect_cofactor.
by rewrite -exprM -expnS dx0 mul0r.
Qed.

(* A fixed point of the refinement whose defect is nilpotent is idempotent. *)
Lemma fixed_point_idempotent e n :
  refine e = e -> defect e ^+ n = 0 -> e * e = e.
Proof.
move=> fix_e nil_e; apply/defect0P.
have dE : defect e = defect e ^+ 2 * cofactor e.
  by rewrite -defect_refine fix_e.
have step m : defect e = defect e ^+ m.+1 * cofactor e ^+ m.
  elim: m => [|m IHm]; first by rewrite expr1 expr0 mulr1.
  rewrite [LHS]IHm exprSr [X in _ * X * _]dE.
  by rewrite mulrA -exprD addn2 -mulrA -exprS.
have le_n : defect e ^+ n.+1 = 0 by rewrite exprSr nil_e mul0r.
by rewrite (step n) le_n mul0r.
Qed.

End RefineTheory.

(* ---------------------------------------------------------------------- *)
(* idempotent_lift                                                         *)
(* ---------------------------------------------------------------------- *)

Section IdempotentLiftTheory.

Variables A S : pzRingType.
Variable retract : {rmorphism A -> S}.
Variable lift : S -> A.
Implicit Types (x y e f : A) (p g : S) (arg : A + S).

Local Notation loop := (idempotent_lift_loop S).
Local Notation idempotent_lift := (idempotent_lift retract lift).
Local Notation lift_argument := (lift_argument lift).

Lemma idempotent_liftE fuel arg :
  idempotent_lift fuel arg =
  if retract (lift_argument arg) * retract (lift_argument arg)
       != retract (lift_argument arg)
  then Raise (not_idempotent_error (retract (lift_argument arg)))
  else loop fuel (lift_argument arg) None.
Proof. by []. Qed.

(* The loop raises nothing. *)
Lemma loop_not_Raise fuel x prev err : loop fuel x prev <> Raise err.
Proof.
elim: fuel x prev => [|fuel IHfuel] x prev /=; first by case: ifP.
by case: ifP => // _; apply: IHfuel.
Qed.

(* Whatever the refinement step preserves holds of the returned element. *)
Lemma loop_invariant (P : A -> Prop) fuel x prev e :
  (forall y, P y -> P (refine y)) -> P x ->
  loop fuel x prev = Return e -> P e.
Proof.
move=> Pstep; elim: fuel x prev => [|fuel IHfuel] x prev Px /=.
  by case: ifP => // _ [<-].
by case: ifP => [_ | _ [<-] //]; apply: IHfuel; apply: Pstep.
Qed.

(* The loop exits on a fixed point of the refinement step. *)
Lemma loop_fixed_point fuel x prev e :
  (forall y, prev = Some y -> x = refine y) ->
  loop fuel x prev = Return e -> refine e = e.
Proof.
elim: fuel x prev => [|fuel IHfuel] x prev prevE /=.
  by case: ifP => // /negbFE/eqP xprev [<-]; rewrite -(prevE x).
case: ifP => [_ | /negbFE/eqP xprev [<-]]; last by rewrite -(prevE x).
by apply: IHfuel => y [<-].
Qed.

(* More fuel does not change a returned element. *)
Lemma loop_fuel_mono fuel fuel' x prev e :
  (fuel <= fuel')%N -> loop fuel x prev = Return e ->
  loop fuel' x prev = Return e.
Proof.
elim: fuel fuel' x prev => [|fuel IHfuel] [|fuel'] x prev //=.
  by case: ifP.
by rewrite ltnS => le_fuel; case: ifP => // _; apply: IHfuel.
Qed.

(* With a defect nilpotent of exponent 2^k, k+1 steps reach the exit. *)
Lemma loop_terminates k fuel x prev :
  defect x ^+ (2 ^ k) = 0 -> (k < fuel)%N ->
  exists e, loop fuel x prev = Return e.
Proof.
elim: k fuel x prev => [|k IHk] [|fuel] x prev // dx0 lt_fuel /=.
  case: ifP => _; last by exists x.
  move: dx0; rewrite expn0 expr1 => /defect0P/idempotent_refine ->.
  by exists x; case: fuel {lt_fuel} => [|fuel] /=; rewrite eqxx.
case: ifP => _; last by exists x.
by apply: IHk => //; apply: defect_refine_nilpotent.
Qed.

Lemma retract_refine x : retract (refine x) = refine (retract x).
Proof. by rewrite /refine rmorphB rmorph1 rmorphXn rmorphB rmorph1 rmorphXn. Qed.

Lemma retract_defect x : retract (defect x) = defect (retract x).
Proof. by rewrite /defect rmorphM rmorphB rmorph1. Qed.


(* The kernel of [retract] is the radical, a nilpotent ideal: the products
   of [N] of its elements vanish, in particular the [N]-th powers. *)
Variable N : nat.
Hypothesis radical_nilpotent : forall z, retract z = 0 -> z ^+ N = 0.

Lemma defect_nilpotent x :
  retract x * retract x = retract x -> defect x ^+ N = 0.
Proof.
by move=> /defect0P dp0; apply: radical_nilpotent; rewrite retract_defect.
Qed.

Lemma defect_nilpotent_exp2 x :
  retract x * retract x = retract x -> defect x ^+ (2 ^ N) = 0.
Proof.
move=> /defect_nilpotent dx0.
by rewrite -(subnK (ltnW (ltn_expl N (ltnSn 1)))) exprD dx0 mulr0.
Qed.

(* What idempotent_lift returns, with an invariant [P] of the refinement
   step carried to the result. *)
Lemma idempotent_lift_spec (P : A -> Prop) arg :
  retract (lift_argument arg) * retract (lift_argument arg)
    = retract (lift_argument arg) ->
  (forall y, P y -> P (refine y)) -> P (lift_argument arg) ->
  exists e,
    [/\ forall fuel, (N < fuel)%N -> idempotent_lift fuel arg = Return e,
        forall fuel e', idempotent_lift fuel arg = Return e' -> e' = e,
        refine e = e,
        e * e = e
      & retract e = retract (lift_argument arg) /\ P e].
Proof.
set x := lift_argument arg => idem_p Pstep Px.
have liftE fuel : idempotent_lift fuel arg = loop fuel x None.
  by rewrite idempotent_liftE -/x idem_p eqxx.
have [e loop_e] := loop_terminates None (defect_nilpotent_exp2 idem_p) (ltnSn N).
have fix_e : refine e = e by apply: loop_fixed_point loop_e.
have retract_e : retract e = retract x.
  apply: (loop_invariant (P := fun y => retract y = retract x)) loop_e => //.
  by move=> y ry; rewrite retract_refine ry idempotent_refine.
exists e; split=> // [fuel lt_fuel | fuel e' | | ].
- by rewrite liftE; apply: loop_fuel_mono loop_e.
- rewrite liftE => loop_e'.
  have := loop_fuel_mono (leq_maxr fuel N.+1) loop_e.
  by rewrite (loop_fuel_mono (leq_maxl fuel N.+1) loop_e') => -[].
- apply: fixed_point_idempotent (fix_e) (_ : defect e ^+ N = 0).
  by apply: defect_nilpotent; rewrite retract_e.
by split=> //; apply: loop_invariant loop_e.
Qed.

(** C4.  For every argument whose retraction to the semisimple quotient is
    idempotent, idempotent_lift returns an element [e] (with any fuel above
    the nilpotency exponent, and the same element whatever the fuel); [e]
    is a fixed point of the map x |-> 1 - (1 - x^2)^2, it is an idempotent
    of the algebra, and it has the same retraction as the argument. *)
Theorem idempotent_lift_fixed_point arg :
  retract (lift_argument arg) * retract (lift_argument arg)
    = retract (lift_argument arg) ->
  exists e,
    [/\ forall fuel, (N < fuel)%N -> idempotent_lift fuel arg = Return e,
        forall fuel e', idempotent_lift fuel arg = Return e' -> e' = e,
        refine e = e,
        e * e = e
      & retract e = retract (lift_argument arg)].
Proof.
move=> idem_p.
have [e [ret_e uniq_e fix_e idem_e [retract_e _]]] :=
  @idempotent_lift_spec (fun=> True) arg idem_p (fun _ _ => I) I.
by exists e.
Qed.

(** C5.  idempotent_lift raises the ValueError whose message is made of the
    retraction [p] of the argument and of "does not retract to an
    idempotent." if and only if [p * p == p] fails.  It does so whatever
    the fuel, in particular with no fuel at all: no refinement step is made;
    and it raises no other exception. *)
Theorem idempotent_lift_rejects arg :
  let p := retract (lift_argument arg) in
  [/\ forall fuel,
        idempotent_lift fuel arg = Raise (not_idempotent_error p)
        <-> p * p <> p,
      p * p <> p -> idempotent_lift 0 arg = Raise (not_idempotent_error p)
    & forall fuel err,
        idempotent_lift fuel arg = Raise err -> err = not_idempotent_error p].
Proof.
move=> p; have raiseE fuel :
  idempotent_lift fuel arg = Raise (not_idempotent_error p) <-> p * p <> p.
  rewrite idempotent_liftE -/p; case: eqP => [pp | ] /=; last by split.
  by split=> // /loop_not_Raise.
split=> // [/(raiseE 0%N) // | fuel err].
rewrite idempotent_liftE -/p; case: ifP => [_ [] // | _ /loop_not_Raise //].
Qed.

(* ---------------------------------------------------------------------- *)
(* orthogonal_idempotents_central_mod_radical                              *)
(* ---------------------------------------------------------------------- *)

(* [lift] is a section of [retract], and the central orthogonal idempotents
   of the semisimple quotient are a decomposition of its identity into
   orthogonal idempotents. *)
Hypothesis liftK : cancel lift retract.
Variable gs : seq S.
Hypothesis gs_decomposition :
  is_identity_decomposition_into_orthogonal_idempotents gs.

Local Notation oi_loop := (orthogonal_idempotents_loop retract lift).

Lemma idempotent_exp e n : e * e = e -> e ^+ n.+1 = e.
Proof. by move=> ee; elim: n => [|n IHn]; rewrite ?expr1 // exprS IHn. Qed.

(* An idempotent of the radical is zero. *)
Lemma radical_idempotent0 z : retract z = 0 -> z * z = z -> z = 0.
Proof.
move=> /radical_nilpotent; case: N => [|n] zN0 zz.
  by rewrite -[z]mulr1 -(expr0 z) zN0 mulr0.
by rewrite -(idempotent_exp n zz).
Qed.

Lemma refine_annihilated f y :
  y * f = 0 /\ f * y = 0 -> refine y * f = 0 /\ f * refine y = 0.
Proof.
case=> yf fy; split.
  by rewrite refine_factor_comm expr2 -!mulrA yf !mulr0.
by rewrite refine_factor expr2 !mulrA fy !mul0r.
Qed.

(* One round of the loop: the lift of (1 - f) * g.lift() * (1 - f). *)
Lemma lift_round f g :
  f * f = f -> g * g = g -> retract f * g = 0 -> g * retract f = 0 ->
  exists fi,
    [/\ forall fuel, (N < fuel)%N ->
          idempotent_lift fuel (inl ((1 - f) * lift g * (1 - f))) = Return fi,
        forall fuel e',
          idempotent_lift fuel (inl ((1 - f) * lift g * (1 - f))) = Return e'
          -> e' = fi,
        fi * fi = fi,
        retract fi = g
      & fi * f = 0 /\ f * fi = 0].
Proof.
move=> ff gg fg gf; set x := (1 - f) * lift g * (1 - f).
have retract_x : retract x = g.
  rewrite /x !rmorphM !rmorphB !rmorph1 liftK.
  by rewrite mulrBl mul1r fg subr0 mulrBr mulr1 gf subr0.
have f0 : f * (1 - f) = 0 by rewrite mulrBr mulr1 ff subrr.
have f0' : (1 - f) * f = 0 by rewrite mulrBl mul1r ff subrr.
have [|||fi [ret_fi uniq_fi _ idem_fi [retract_fi orth_fi]]] :=
  @idempotent_lift_spec (fun y => y * f = 0 /\ f * y = 0) (inl x).
- by rewrite /= retract_x.
- exact: refine_annihilated.
- by rewrite /= /x; split; rewrite -?mulrA ?f0' ?mulr0 // !mulrA f0 !mul0r.
by exists fi; split=> //; rewrite retract_fi.
Qed.

Lemma sum_orthogonal (R : pzRingType) (l : seq R) (g : R) :
  all (fun h => orthogonal_to_earlier h g) l ->
  (\sum_(h <- l) h) * g = 0 /\ g * (\sum_(h <- l) h) = 0.
Proof.
move=> /allP orth; rewrite big_distrl big_distrr /=.
by split; rewrite big1_seq // => h /andP[_ /orth/andP[/eqP gh /eqP hg]].
Qed.

(* The loop, started on the lifts [es] of the central idempotents [gs1]
   already visited, with [f] the sum of [es]. *)
Lemma orthogonal_idempotents_loop_spec gs2 gs1 es f :
  all (fun g => g * g == g) gs2 ->
  pairwise (@orthogonal_to_earlier S) (gs1 ++ gs2) ->
  [/\ f = \sum_(e <- es) e, f * f = f & [seq retract e | e <- es] = gs1] ->
  all (fun e => e * e == e) es ->
  all (fun e => (f * e == e) && (e * f == e)) es ->
  pairwise (@orthogonal_to_earlier A) es ->
  exists es',
    [/\ forall fuel, (N < fuel)%N -> oi_loop fuel gs2 es f = Return es',
        forall fuel es'', oi_loop fuel gs2 es f = Return es'' -> es'' = es',
        [seq retract e | e <- es'] = gs1 ++ gs2,
        all (fun e => e * e == e) es'
      & pairwise (@orthogonal_to_earlier A) es'
        /\ (\sum_(e <- es') e) * (\sum_(e <- es') e) = \sum_(e <- es') e].
Proof.
elim: gs2 gs1 es f => [|g gs2 IHgs] gs1 es f /=.
  move=> _ _ [fE ff retract_es] idem_es _ orth_es; exists es.
  by rewrite cats0 -fE; split=> // fuel es' [].
case/andP=> /eqP gg idem_gs orth_gs [fE ff retract_es] idem_es abs_es orth_es.
have [fg gf] : retract f * g = 0 /\ g * retract f = 0.
  rewrite fE rmorph_sum -(big_map retract xpredT idfun) /= retract_es.
  apply: sum_orthogonal; move: orth_gs; rewrite pairwise_cat => /and3P[+ _ _].
  by rewrite allrel_consr => /andP[].
have [fi [ret_fi uniq_fi idem_fi retract_fi [fi_f f_fi]]] :=
  lift_round ff gg fg gf.
have [|||||es' [ret_es' uniq_es' retract_es' idem_es' [orth_es' sum_es']]] :=
  IHgs (rcons gs1 g) (rcons es fi) (f + fi) idem_gs.
- by rewrite cat_rcons.
- split; first by rewrite -cats1 big_cat big_seq1 /= fE.
    by rewrite mulrDl !mulrDr ff idem_fi f_fi fi_f addr0 add0r.
  by rewrite map_rcons retract_es retract_fi.
- by rewrite all_rcons idem_fi eqxx.
- rewrite all_rcons mulrDl mulrDr idem_fi f_fi fi_f !add0r !eqxx /=.
  apply/allP => e /(allP abs_es)/andP[/eqP fe /eqP ef].
  have fi_e : fi * e = 0 by rewrite -fe mulrA fi_f mul0r.
  have e_fi : e * fi = 0 by rewrite -ef -mulrA f_fi mulr0.
  by rewrite mulrDl mulrDr fe ef fi_e e_fi !addr0 !eqxx.
- rewrite pairwise_rcons orth_es andbT.
  apply/allP => e /(allP abs_es)/andP[/eqP fe /eqP ef].
  have fi_e : fi * e = 0 by rewrite -fe mulrA fi_f mul0r.
  have e_fi : e * fi = 0 by rewrite -ef -mulrA f_fi mulr0.
  by rewrite /orthogonal_to_earlier fi_e e_fi eqxx.
exists es'; rewrite -cat_rcons; split=> // [fuel lt_fuel | fuel es''].
  by rewrite ret_fi //=; apply: ret_es'.
case lift_fi: (idempotent_lift _ _) => [fi'| |] //=.
by rewrite (uniq_fi _ _ lift_fi); apply: uniq_es'.
Qed.

(* What orthogonal_idempotents_central_mod_radical returns. *)
Lemma orthogonal_idempotents_spec :
  exists es,
    [/\ forall fuel, (N < fuel)%N ->
          orthogonal_idempotents_central_mod_radical retract lift gs fuel
          = Return es,
        forall fuel es',
          orthogonal_idempotents_central_mod_radical retract lift gs fuel
          = Return es' -> es' = es,
        [seq retract e | e <- es] = gs
      & is_identity_decomposition_into_orthogonal_idempotents es].
Proof.
move: gs_decomposition; rewrite is_identity_decompositionE.
case/and3P=> /eqP sum_gs idem_gs orth_gs.
have [||||es [ret_es uniq_es retract_es idem_es [orth_es sum_es]]] :=
  @orthogonal_idempotents_loop_spec gs [::] [::] 0 idem_gs orth_gs.
- by rewrite big_nil mulr0.
- by [].
- by [].
- by [].
exists es; split=> //; rewrite is_identity_decompositionE idem_es orth_es !andbT.
rewrite -subr_eq0 -opprB oppr_eq0; apply/eqP/radical_idempotent0.
  rewrite rmorphB rmorph1 rmorph_sum -(big_map retract xpredT idfun) /=.
  by rewrite retract_es sum_gs subrr.
by rewrite mulrBl mul1r mulrBr mulr1 sum_es subrr subr0.
Qed.

(** C1.  For an algebra with a nilpotent radical and a decomposition [gs]
    of the identity of its semisimple quotient into (central) orthogonal
    idempotents, orthogonal_idempotents_central_mod_radical returns a tuple
    [es] (with any fuel above the nilpotency exponent, and the same tuple
    whatever the fuel) that is a decomposition of the identity into
    orthogonal idempotents: its sum is the unit, each of its elements is
    idempotent, and the elements at two distinct positions multiply to zero
    in both orders; so that
    is_identity_decomposition_into_orthogonal_idempotents accepts it. *)
Theorem orthogonal_idempotents_decomposition :
  exists es,
    [/\ forall fuel, (N < fuel)%N ->
          orthogonal_idempotents_central_mod_radical retract lift gs fuel
          = Return es,
        forall fuel es',
          orthogonal_idempotents_central_mod_radical retract lift gs fuel
          = Return es' -> es' = es,
        algebra_sum es = 1,
        forall e, e \in es -> e * e = e
      & (forall i j, (i < size es)%N -> (j < size es)%N -> i != j ->
           nth 0 es i * nth 0 es j = 0 /\ nth 0 es j * nth 0 es i = 0)
        /\ is_identity_decomposition_into_orthogonal_idempotents es].
Proof.
have [es [ret_es uniq_es _ decomp_es]] := orthogonal_idempotents_spec.
have /is_identity_decompositionP[sum_es idem_es orth_es] := decomp_es.
exists es; split=> //; first by rewrite algebra_sumE.
split=> // i j lti ltj neq_ij.
by split; apply: orth_es => //; rewrite eq_sym.
Qed.

End IdempotentLiftTheory.

(* ---------------------------------------------------------------------- *)
(* Peirce decomposition                                                    *)
(* ---------------------------------------------------------------------- *)

Section PeirceTheory.

Variables (K : fieldType) (A : falgType K).
Implicit Types (e f v : A) (es : seq A).

Lemma span_algebra_basis : span (algebra_basis A) = fullv.
Proof. exact: span_basis (vbasisP _). Qed.

Lemma peirce_summand_limg ei ej :
  peirce_summand ei ej = ((amulr ej \o amull ei)%VF @: {:A})%VS.
Proof.
rewrite /peirce_summand -span_algebra_basis limg_span; congr span.
by apply: eq_map => b; rewrite comp_lfunE !lfunE.
Qed.

Lemma peirce_summandP ei ej v :
  reflect (exists a, v = ei * a * ej) (v \in peirce_summand ei ej).
Proof.
rewrite peirce_summand_limg; apply: (iffP memv_imgP) => [[a _ ->] | [a ->]].
  by exists a; rewrite comp_lfunE !lfunE.
by exists a; rewrite ?memvf // comp_lfunE !lfunE.
Qed.

Lemma peirce_summand_fixed ei ej v :
  ei * ei = ei -> ej * ej = ej -> v \in peirce_summand ei ej ->
  ei * v * ej = v.
Proof.
move=> eii ejj /peirce_summandP[a ->].
by rewrite !mulrA eii -!mulrA ejj.
Qed.

Lemma peirce_summand_orthogonal ei ej ek el v :
  ek * ei = 0 \/ ej * el = 0 -> v \in peirce_summand ei ej ->
  ek * v * el = 0.
Proof.
move=> orth /peirce_summandP[a ->]; case: orth => [eki | ejl].
  by rewrite !mulrA eki !mul0r.
by rewrite -!mulrA ejl !mulr0.
Qed.

(* The dimensions of the Peirce summands of a decomposition of the identity
   into orthogonal idempotents add up to the dimension of the algebra. *)
Lemma peirce_dimension_sum es :
  is_identity_decomposition_into_orthogonal_idempotents es ->
  (\sum_(ei <- es) \sum_(ej <- es) \dim (peirce_summand ei ej))%N
    = dimension A.
Proof.
case/is_identity_decompositionP=> sum1 idem orth.
pose n := size es; pose e_ (i : 'I_n) : A := nth 0 es i.
have idem_e i : e_ i * e_ i = e_ i by apply/idem/mem_nth.
have orth_e i j : i != j -> e_ i * e_ j = 0 by move=> ?; apply: orth.
have sum_e : \sum_i e_ i = 1 by rewrite -sum1 (big_nth 0) big_mkord.
pose Us (p : 'I_n * 'I_n) := peirce_summand (e_ p.1) (e_ p.2).
have dxU : directv (\sum_p Us p).
  apply/directv_sum_independent => us Uus sum_us [k l] _.
  have <- := peirce_summand_fixed (idem_e k) (idem_e l) (Uus (k, l) isT).
  have -> : us (k, l) = \sum_p us p - \sum_(p | p != (k, l)) us p.
    by rewrite [X in X - _](bigD1 (k, l)) //= addrK.
  rewrite sum_us sub0r mulrN mulNr mulr_sumr mulr_suml big1 ?oppr0 // => -[i j].
  rewrite xpair_eqE negb_and /= => neq_p.
  apply: peirce_summand_orthogonal (Uus (i, j) isT).
  by case/orP: neq_p => neq; [left | right]; apply: orth_e; rewrite // eq_sym.
have fullU : (\sum_p Us p)%VS = fullv.
  apply/eqP; rewrite eqEsubv subvf; apply/subvP => v _.
  have -> : v = \sum_p e_ p.1 * v * e_ p.2.
    rewrite -(pair_big xpredT xpredT (fun i j => e_ i * v * e_ j)) /=.
    rewrite -[LHS]mul1r -[LHS]mulr1 -{1 2}sum_e mulr_suml mulr_suml.
    by apply: eq_bigr => i _; rewrite mulr_sumr.
  by apply: memv_sumr => p _; apply/peirce_summandP; exists v.
rewrite /dimension -fullU (directvP dxU) /=.
rewrite (big_nth 0) big_mkord -/n.
rewrite -(pair_big xpredT xpredT (fun i j => \dim (Us (i, j)))) /=.
by apply: eq_bigr => i _; rewrite (big_nth 0) big_mkord.
Qed.

End PeirceTheory.

(* ---------------------------------------------------------------------- *)
(* Loops over lists and the integer quotient                               *)
(* ---------------------------------------------------------------------- *)

Section MapM.

Variables (E T U : Type) (body : T -> result E U).

Lemma mapM_Return l ys (x0 : T) (y0 : U) :
  mapM body l = Return ys ->
  size ys = size l
  /\ forall i, (i < size l)%N -> body (nth x0 l i) = Return (nth y0 ys i).
Proof.
elim: l ys => [|x l IHl] ys /=; first by case=> <-.
case body_x: (body x) => [y| |] //=.
case mapM_l: (mapM body l) => [ys'| |] //= [<-] /=.
have [-> nth_ys'] := IHl _ mapM_l.
by split=> // -[|i] //=; rewrite ltnS; apply: nth_ys'.
Qed.

Lemma mapM_total l :
  (forall i, (i < size l)%N -> exists y, forall x0, body (nth x0 l i) = Return y) ->
  exists ys, mapM body l = Return ys.
Proof.
elim: l => [|x l IHl] /= body_l; first by exists [::].
have [y /(_ x) /= ->] := body_l 0%N (ltn0Sn _).
have [i lti|ys ->] := IHl; first exact: (body_l i.+1).
by exists (y :: ys).
Qed.

End MapM.

Lemma integer_quotient_Return E d r z :
  integer_quotient E d r = Return z ->
  exists c : nat,
    [/\ z = Posz c, (c * c * surd_square r = d * d)%N
      & surd_square r != 0%N].
Proof.
rewrite /integer_quotient; case: eqP => // _.
case filterE: (filter _ _) => [|c s] // [<-]; exists c; split=> //.
have: c \in [seq m <- iota 0 d.+1 | m * m * surd_square r == d * d]%N.
  by rewrite filterE mem_head.
by rewrite mem_filter => /andP[/eqP].
Qed.

Lemma integer_quotient_total E d r c :
  surd_square r != 0%N -> (c * c * surd_square r = d * d)%N ->
  exists z, integer_quotient E d r = Return z.
Proof.
move=> r_neq0 cE; rewrite /integer_quotient (negPf r_neq0).
have: c \in [seq m <- iota 0 d.+1 | m * m * surd_square r == d * d]%N.
  rewrite mem_filter cE eqxx mem_iota add0n ltnS /=.
  rewrite -(leq_sqr c d) -!mulnn -cE leq_pmulr // lt0n.
  exact: r_neq0.
by case: (filter _ _) => [|m s] // _; exists (Posz m).
Qed.

(* ---------------------------------------------------------------------- *)
(* peirce_decomposition and cartan_invariants_matrix                       *)
(* ---------------------------------------------------------------------- *)

Section CartanTheory.

Variables (K : fieldType) (A S : falgType K).
Variable retract : {rmorphism A -> S}.
Variable lift : S -> A.

(* The semisimple quotient: [lift] is a section of [retract], whose kernel
   is the radical, nilpotent of exponent [N]; [gs] stands for the central
   orthogonal idempotents of the quotient. *)
Variable N : nat.
Hypothesis radical_nilpotent : forall z, retract z = 0 -> z ^+ N = 0.
Hypothesis liftK : cancel lift retract.
Variable gs : seq S.
Hypothesis gs_decomposition :
  is_identity_decomposition_into_orthogonal_idempotents gs.

Local Notation orthogonal_idempotents :=
  (orthogonal_idempotents_central_mod_radical retract lift gs).

(** C8.  With [es] the family returned by
    orthogonal_idempotents_central_mod_radical (it is returned with any fuel
    above the nilpotency exponent, and is the same whatever the fuel), the
    dimensions of the Peirce summands peirce_summand(e_i, e_j), summed over
    all the pairs (i, j), give the dimension of the algebra; these summands
    are the entries of the grid returned by peirce_decomposition(). *)
Theorem peirce_dimensions :
  exists es,
    [/\ forall fuel, (N < fuel)%N -> orthogonal_idempotents fuel = Return es,
        forall fuel es', orthogonal_idempotents fuel = Return es' -> es' = es,
        forall fuel, (N < fuel)%N ->
          peirce_decomposition retract lift gs fuel None true
          = Return [seq [seq peirce_summand ei ej | ej <- es] | ei <- es]
      & (\sum_(ei <- es) \sum_(ej <- es) \dim (peirce_summand ei ej))%N
          = dimension A].
Proof.
have [es [ret_es uniq_es _ decomp_es]] :=
  orthogonal_idempotents_spec radical_nilpotent liftK gs_decomposition.
exists es; split=> // [fuel lt_fuel|]; last exact: peirce_dimension_sum.
by rewrite /peirce_decomposition ret_es //= decomp_es.
Qed.

(* The dimension of the simple module of index [i], squared, and the
   dimension of the Peirce summand of indices [i] and [j]. *)
Local Notation simple_dim_sqr i := (\dim (principal_ideal (nth 0 gs i) Left)).
Local Notation peirce_dim es i j :=
  (\dim (peirce_summand (nth 0 es i) (nth 0 es j))).

(** C7.  When cartan_invariants_matrix() returns, its result is an immutable
    square matrix of integers with one row and one column for each of the
    orthogonal idempotents [es]; its entry (i, j) is the nonnegative integer
    c for which c times the square roots of the dimensions of the principal
    ideals of the i-th and j-th central orthogonal idempotents of the
    semisimple quotient is the dimension of peirce_summand(e_i, e_j).  It
    returns (with fuel above the nilpotency exponent) as soon as all these
    quotients are integers. *)
Theorem cartan_invariants_matrix_entries :
  exists es,
    [/\ forall fuel, (N < fuel)%N -> orthogonal_idempotents fuel = Return es,
        size es = size gs,
        forall fuel m, cartan_invariants_matrix retract lift gs fuel = Return m ->
          [/\ is_immutable m, nrows m = size es, ncols m = size es,
              size (entries m) = size es
            & forall i j, (i < size es)%N -> (j < size es)%N ->
                size (nth [::] (entries m) i) = size es
                /\ exists c : nat,
                  [/\ nth 0 (nth [::] (entries m) i) j = Posz c,
                      (c * c * (simple_dim_sqr i * simple_dim_sqr j)
                       = peirce_dim es i j * peirce_dim es i j)%N
                    & forall ki kj : nat,
                        simple_dim_sqr i = (ki * ki)%N ->
                        simple_dim_sqr j = (kj * kj)%N ->
                        (c * (ki * kj))%N = peirce_dim es i j]]
      & forall fuel, (N < fuel)%N ->
          (forall i j, (i < size es)%N -> (j < size es)%N ->
             exists2 c : nat,
               (simple_dim_sqr i * simple_dim_sqr j)%N != 0%N
               & (c * c * (simple_dim_sqr i * simple_dim_sqr j)
                  = peirce_dim es i j * peirce_dim es i j)%N) ->
          exists m, cartan_invariants_matrix retract lift gs fuel = Return m].
Proof.
have [es [ret_es uniq_es retract_es _]] :=
  orthogonal_idempotents_spec radical_nilpotent liftK gs_decomposition.
have size_es : size es = size gs by rewrite -retract_es size_map.
pose dim_simples := [seq Surd (\dim (principal_ideal e Left)) | e <- gs].
have nth_dim i : (i < size es)%N ->
    surd_square (nth (Surd 0) dim_simples i) = simple_dim_sqr i.
  by rewrite size_es => lti; rewrite (nth_map 0).
exists es; split=> // [fuel m | fuel lt_fuel integral].
  rewrite /cartan_invariants_matrix.
  case oi_fuel: (orthogonal_idempotents fuel) => [es'| |] //=.
  rewrite {es' oi_fuel}(uniq_es _ _ oi_fuel) -/dim_simples.
  case rowsE: (mapM _ _) => [rows| |] //= [<-] /=.
  have [size_rows nth_rows] := mapM_Return 0%N [::] rowsE.
  rewrite size_iota in size_rows nth_rows.
  split=> // i j lti ltj; have:= nth_rows i lti; rewrite nth_iota // add0n.
  move=> /(mapM_Return 0%N 0)[]; rewrite size_iota => size_row /(_ j ltj).
  rewrite nth_iota // add0n => /integer_quotient_Return[c []] /=.
  rewrite !nth_dim // => nth_row cE _; split=> //; exists c; split=> // ki kj.
  move=> kiE kjE; apply/eqP; rewrite -eqn_sqr -!mulnn; apply/eqP.
  by rewrite -cE kiE kjE mulnACA [(ki * kj * _)%N]mulnACA.
rewrite /cartan_invariants_matrix ret_es //= -/dim_simples.
set rowsM := mapM _ _.
have [rows ->] : exists rows, rowsM = Return rows; last by eexists.
apply: mapM_total => i; rewrite size_iota => lti.
suff [row rowE] : exists row,
    mapM (fun j => integer_quotient S (peirce_dim es i j)
            (surd_mul (nth (Surd 0) dim_simples i)
                      (nth (Surd 0) dim_simples j)))
         (iota 0 (size es)) = Return row.
  by exists row => x0; rewrite nth_iota // add0n.
apply: mapM_total => j; rewrite size_iota => ltj.
have [c neq0 cE] := integral i j lti ltj.
have [//||z zE] := @integer_quotient_total S (peirce_dim es i j)
  (surd_mul (nth (Surd 0) dim_simples i) (nth (Surd 0) dim_simples j)) c.
- by rewrite /= !nth_dim.
- by rewrite /= !nth_dim.
by exists z => x0; rewrite nth_iota // add0n.
Qed.

End CartanTheory.

(* ---------------------------------------------------------------------- *)
(* Coordinates, to_matrix and __invert__                                   *)
(* ---------------------------------------------------------------------- *)

Section InvertTheory.

Variables (K : fieldType) (A : falgType K).
Implicit Types (x y : A) (v : 'cV[K]_(dimension A)).

Local Notation basis := (algebra_basis A).

Lemma free_algebra_basis : free basis.
Proof. by have /andP[] := vbasisP {:A}. Qed.

Lemma to_vectorK : cancel (@to_vector K A) (@from_vector K A).
Proof.
move=> x; rewrite /from_vector [RHS](coord_vbasis (memvf x)).
by apply: eq_bigr => i _; rewrite mxE.
Qed.

Lemma from_vectorK : cancel (@from_vector K A) (@to_vector K A).
Proof.
move=> v; apply/colP => i; rewrite mxE /from_vector.
exact: (coord_sum_free (fun i => v i 0) i free_algebra_basis).
Qed.

(* The matrix of the left multiplication by [x] computes the product. *)
Lemma to_matrix_mul x y :
  to_matrix x *%R Left *m to_vector y = to_vector (x * y).
Proof.
apply/colP => i; rewrite !mxE -[y in RHS]to_vectorK /from_vector.
rewrite mulr_sumr linear_sum /=; apply: eq_bigr => j _.
by rewrite !mxE -scalerAr linearZ /= mulrC.
Qed.

(* In a finite dimensional algebra a right inverse is a left inverse. *)
Lemma right_inverse_left x y : x * y = 1 -> y * x = 1.
Proof.
move=> xy1; have ker0 : lker (amull y) == 0%VS.
  apply/lker0P => u v; rewrite !lfunE /= => yuv.
  by rewrite -[u]mul1r -[v]mul1r -xy1 -!mulrA yuv.
have := lker0_lfunVK ker0 1; rewrite lfunE /=; set z := _ 1 => yz1.
have -> : x = z by rewrite -[z]mul1r -xy1 -mulrA yz1 mulr1.
exact: yz1.
Qed.

(* An element with a one-element support. *)
Lemma monomial_coefficients_single x k :
  (size (monomial_coefficients x) == 1%N)
  && (k \in [seq kc.1 | kc <- monomial_coefficients x]) ->
  coord basis k x != 0 /\ x = term k (coord basis k x).
Proof.
rewrite /monomial_coefficients size_map -map_comp.
rewrite (@eq_map _ _ _ id) ?map_id; first by move=> i.
set supp := filter _ _ => /andP[/eqP size_supp supp_k].
have suppE : supp = [:: k].
  by case: supp size_supp supp_k => [|i [|? ?]] //; rewrite inE => _ /eqP->.
have mem_supp i : (coord basis i x != 0) = (i == k).
  have := mem_filter (fun i => coord basis i x != 0) i (enum 'I_(dimension A)).
  by rewrite -/supp suppE inE mem_enum andbT => <-.
split; first by rewrite mem_supp.
rewrite -[LHS]to_vectorK /from_vector (bigD1 k) //= big1 ?addr0 ?mxE // => i.
by rewrite -mem_supp negbK mxE => /eqP->; rewrite scale0r.
Qed.

Section Invert.

Variable one_basis : result A (option 'I_(dimension A)).
Variable base_ring : pred K.
Variable solve_right :
  'M[K]_(dimension A) -> 'cV[K]_(dimension A) -> option 'cV[K]_(dimension A).

(* alg.one_basis() returns the key of the unit, returns None, or raises one
   of the exceptions that __invert__ catches; solve_right returns a solution
   of the system when there is one. *)
Hypothesis one_basis_caught : exists ob, try_one_basis one_basis = Return ob.
Hypothesis one_basis_unit :
  forall k, try_one_basis one_basis = Return (Some k) -> basis`_k = 1.
Hypothesis solve_right_solution :
  forall M e v, solve_right M e = Some v -> M *m v = e.
Hypothesis solve_right_none :
  forall M e, solve_right M e = None -> forall v, M *m v != e.

Local Notation inverse_of := (invert one_basis base_ring solve_right).
Local Notation solved_inverse := (invert_by_solving base_ring solve_right).

Lemma invert_by_solvingE x :
  solved_inverse x =
  match solve_right (to_matrix x *%R Left) (to_vector 1) with
  | Some v =>
      if [forall i, v i 0 \in base_ring] then Return (from_vector v)
      else Raise (cannot_invert x)
  | None => Raise (cannot_invert x)
  end.
Proof.
rewrite /invert_by_solving; case: solve_right => [v|] //=.
by rewrite /change_ring; case: ifP.
Qed.

Lemma invert_by_solving_inverse x y :
  solved_inverse x = Return y -> x * y = 1 /\ y * x = 1.
Proof.
rewrite invert_by_solvingE; case solveE: solve_right => [v|] //.
case: ifP => // _ [<-]; have xy1 : x * from_vector v = 1.
  apply: (can_inj to_vectorK); rewrite -to_matrix_mul from_vectorK.
  exact: solve_right_solution solveE.
by split=> //; apply: right_inverse_left.
Qed.

Lemma invert_by_solving_cases x :
  (exists2 y, solved_inverse x = Return y & x * y = 1 /\ y * x = 1)
  \/ solved_inverse x = Raise (cannot_invert x).
Proof.
case invE: (solved_inverse x) => [y|e|].
- by left; exists y => //; apply: invert_by_solving_inverse.
- right; move: invE; rewrite invert_by_solvingE.
  by case: solve_right => [v|]; [case: ifP|] => // _ [<-].
move: invE; rewrite invert_by_solvingE.
by case: solve_right => [v|] //; case: ifP.
Qed.


End Invert.

End InvertTheory.

(* ---------------------------------------------------------------------- *)
(* radical_basis                                                           *)
(* ---------------------------------------------------------------------- *)

Lemma python_sumE (V : nmodType) (l : seq V) : python_sum l = \sum_(x <- l) x.
Proof.
have foldlE (z : V) : foldl +%R z l = z + \sum_(x <- l) x.
  elim: l z => [|x l IHl] z /=; first by rewrite big_nil addr0.
  by rewrite IHl big_cons addrA.
by rewrite /python_sum foldlE add0r.
Qed.

Section MapMReturn.

Variables (E T U : Type) (body : T -> result E U).

Lemma mapM_ReturnP l ys (x0 : T) (y0 : U) :
  mapM body l = Return ys <->
  size ys = size l
  /\ forall i, (i < size l)%N -> body (nth x0 l i) = Return (nth y0 ys i).
Proof.
split; first exact: mapM_Return.
elim: l ys => [|x l IHl] [|y ys] [] //= /eqP; rewrite eqSS => /eqP size_ys nth_ys.
have /= -> /= := nth_ys 0%N (ltn0Sn _).
by rewrite (IHl ys) //; split=> // i lti; apply: (nth_ys i.+1).
Qed.

Lemma mapM_not_Pending l :
  (forall x, body x <> Pending) -> mapM body l <> Pending.
Proof.
move=> body_x; elim: l => [|x l IHl] //=.
case body_xE: (body x) (body_x x) => [y| |] //= _.
by case: (mapM body l) IHl.
Qed.

End MapMReturn.

Section RadicalBasisTheory.

Variable F : comNzRingType.
Variable is_field : bool.
Variable characteristic : nat.
Variable order : option nat.
Variable n : nat.
Variable product_on_basis : 'I_n -> 'I_n -> seq ('I_n * F).
Variable one_vector : 'cV[F]_n.
Variable kernel_basis : seq (seq F) -> seq (seq F).
Variable has_nth_root : bool.
Variable nth_root : F -> nat -> option F.
Variable fractional_power : F -> nat -> option F.

Local Notation root := (root_fcn has_nth_root nth_root fractional_power).
Local Notation loop :=
  (radical_loop characteristic order kernel_basis has_nth_root nth_root
     fractional_power).
Local Notation one_round :=
  (round order (n := n) kernel_basis has_nth_root nth_root fractional_power).
Local Notation all_rounds :=
  (rounds characteristic order (n := n) kernel_basis has_nth_root nth_root
     fractional_power).

Implicit Types (B : seq 'M[F]_n) (G C : seq (seq F)).

Lemma gram_matrixP s B G :
  is_gram_matrix s B G <-> G = gram_matrix s B (B ++ [:: 1%:M]).
Proof.
rewrite cats1; split=> [[size_G nth_G] | ->]; last first.
  split=> [|i lti]; first by rewrite size_map.
  rewrite (nth_map 0) // size_map size_rcons; split=> // j ltj.
  by rewrite (nth_map 0) ?size_rcons.
apply: (@eq_from_nth _ [::]) => [|i]; first by rewrite size_map.
rewrite size_G => lti; have [size_Gi nth_Gi] := nth_G i lti.
rewrite (nth_map 0) //; apply: (@eq_from_nth _ 0) => [|j].
  by rewrite size_map size_rcons.
by rewrite size_Gi => ltj; rewrite nth_Gi // (nth_map 0) ?size_rcons.
Qed.

Lemma are_rootsP s C C' :
  are_roots has_nth_root nth_root fractional_power s C C'
  <-> mapM (mapM (root s)) C = Return C'.
Proof.
rewrite (mapM_ReturnP _ _ _ [::] [::]); split=> -[size_C' nth_C'].
  split=> // k ltk; have [size_k nth_k] := nth_C' k ltk.
  by apply/(mapM_ReturnP _ _ _ 0 0).
split=> // k ltk; exact/(mapM_ReturnP _ _ _ 0 0)/nth_C'.
Qed.

Lemma combinationE c B :
  combination c B = \sum_(k < size B) nth 0 c k *: nth 0 B k.
Proof.
rewrite /combination python_sumE big_map.
elim: B c => [|b B IHB] [|x c] /=; rewrite ?big_nil ?big_ord0 //.
  by rewrite big1 // => k _; rewrite nth_nil scale0r.
by rewrite big_cons big_ord_recl /= IHB.
Qed.

(* The body of the while loop performs a round, and nothing else does. *)
Lemma round_body s B B' :
  one_round s B B' <->
  (let? C := (if takes_roots order s
              then mapM (mapM (root s))
                     (kernel_basis (gram_matrix s B (B ++ [:: 1%:M])))
              else Return (kernel_basis (gram_matrix s B (B ++ [:: 1%:M])))) in
   Return [seq combination c B | c <- C]) = Return B'.
Proof.
have mapE C : [seq combination c B | c <- C]
              = [seq \sum_(k < size B) nth 0 c k *: nth 0 B k | c <- C].
  by apply: eq_map => c; apply: combinationE.
split=> [[G C' /gram_matrixP-> C'E] | ].
  case: ifP C'E => _ => [/are_rootsP-> | ->] /=; by rewrite mapE.
case rootsE: (if _ then _ else _) => [C'| |] //= [<-]; rewrite mapE.
apply: (Round (G := gram_matrix s B (B ++ [:: 1%:M]))); first exact/gram_matrixP.
by case: ifP rootsE => _ => [/are_rootsP | []].
Qed.

Lemma radical_loop_rounds fuel s B Bfinal :
  loop fuel s B = Return Bfinal -> all_rounds s B Bfinal.
Proof.
elim: fuel s B => [|fuel IHfuel] s B /=.
  by case: leqP => // lt_ns [<-]; apply: rounds_exit.
case: leqP => [le_sn | lt_ns [<-]]; last exact: rounds_exit.
case bodyE: (if _ then _ else _) => [C| |] //= /IHfuel; apply: rounds_step => //.
by apply/round_body; rewrite bodyE.
Qed.

Lemma rounds_radical_loop fuel s B Bfinal :
  all_rounds s B Bfinal ->
  loop fuel s B = Return Bfinal \/ loop fuel s B = Pending.
Proof.
move=> rounds_s; elim: rounds_s fuel => {s B Bfinal}
  [s B lt_ns | s B B' Bfinal le_sn /round_body bodyE _ IHrounds] fuel.
  by left; case: fuel => [|fuel] /=; rewrite leqNgt lt_ns.
case: fuel => [|fuel] /=; rewrite le_sn; first by right.
by case: (if _ then _ else _) bodyE => [C| |] //= [->].
Qed.

Lemma root_not_Pending s x : root s x <> Pending.
Proof. by rewrite /root_fcn; case: (if _ then _ else _). Qed.

(* Each round multiplies s by the characteristic: the loop exits. *)
Lemma radical_loop_not_Pending fuel s B :
  (1 < characteristic)%N -> (0 < s)%N -> (n < s * 2 ^ fuel)%N ->
  loop fuel s B <> Pending.
Proof.
move=> lt1p; elim: fuel s B => [|fuel IHfuel] s B s_gt0 /=.
  by rewrite expn0 muln1 ltnNge => /negPf->.
rewrite expnS mulnA => lt_n; case: leqP => // le_sn.
case bodyE: (if _ then _ else _) => [C| |] //=.
  apply: IHfuel; first by rewrite muln_gt0 s_gt0 ltnW.
  apply: leq_trans lt_n _; rewrite leq_mul2r [(s * 2)%N]mulnC leq_mul2r.
  by rewrite lt1p !orbT.
case: ifP bodyE => // _ /mapM_not_Pending[] // c.
exact/mapM_not_Pending/root_not_Pending.
Qed.

Local Notation radical :=
  (radical_basis is_field characteristic order product_on_basis one_vector
     kernel_basis has_nth_root nth_root fractional_power).

Lemma regular_matrices_cons :
  (0 < n)%N ->
  exists b B, regular_matrices product_on_basis = b :: B.
Proof.
move=> n_gt0; case BE: (regular_matrices product_on_basis) => [|b B].
  by have := congr1 size BE; rewrite size_map size_enum_ord /= => n0;
     rewrite n0 in n_gt0.
by exists b, B.
Qed.


End RadicalBasisTheory.

(** C6 (as amended).  For every algebra whose base ring is not a field,
    radical_basis() raises, before any computation and whatever the algebra
    and the collaborators are, the NotImplementedError whose message is
    "the base ring must be a field". *)
Theorem radical_basis_not_a_field (F : comNzRingType) p order n
    (product_on_basis : 'I_n -> 'I_n -> seq ('I_n * F)) one_vector
    kernel_basis has_nth_root nth_root fractional_power fuel :
  radical_basis false p order product_on_basis one_vector kernel_basis
    has_nth_root nth_root fractional_power fuel
  = Raise not_a_field_error.
Proof. by []. Qed.

(* The ring of integers, as an algebra of dimension 1 over itself: it is not
   a field, of characteristic 0 and infinite; the kernel and the roots are
   not reached. *)
Lemma radical_basis_not_value_error :
  radical_basis (F := int) false 0 None
    (fun _ _ : 'I_1 => [:: (ord0, 1)]) (const_mx 1)
    (fun=> [::]) false (fun _ _ => None) (fun _ _ => None) 0
  <> Raise (Exn ValueError "base ring must be a field" [::]).
Proof. by []. Qed.


(* ---------------------------------------------------------------------- *)
(* Further properties of the decomposition test                            *)
(* ---------------------------------------------------------------------- *)

Section PairwisePerm.

Variables (T : eqType) (r : rel T).
Hypothesis r_sym : symmetric r.

Lemma pairwise_insert (s1 s2 : seq T) x :
  pairwise r (s1 ++ x :: s2) = all (r x) (s1 ++ s2) && pairwise r (s1 ++ s2).
Proof.
rewrite !pairwise_cat /= allrel_consr all_cat.
have -> : all (r^~ x) s1 = all (r x) s1 by apply: eq_all => y; rewrite r_sym.
by rewrite -!andbA; do !bool_congr.
Qed.

Lemma perm_pairwise (s1 s2 : seq T) :
  perm_eq s1 s2 -> pairwise r s1 = pairwise r s2.
Proof.
elim: s1 s2 => [|x s1 IHs] s2; first by rewrite perm_sym => /perm_nilP->.
move=> perm12; have x_s2: x \in s2 by rewrite -(perm_mem perm12) mem_head.
case/splitPr: x_s2 perm12 => s2a s2b perm12.
have perm1 : perm_eq s1 (s2a ++ s2b).
  by rewrite -(perm_cons x) (permPl perm12) -[x :: s2b]cat1s perm_catCA.
by rewrite pairwise_insert /= (IHs _ perm1) (perm_all _ perm1).
Qed.

End PairwisePerm.

Section DecompositionExtras.

Variable A : pzRingType.
Implicit Types (l : seq A) (e f : A).

Lemma orthogonal_to_earlier_sym : symmetric (@orthogonal_to_earlier A).
Proof. by move=> e f; rewrite /orthogonal_to_earlier andbC. Qed.

(** X1.  The answer of is_identity_decomposition_into_orthogonal_idempotents
    does not depend on the order in which the elements are listed: two
    lists that are permutations of each other get the same answer. *)
Theorem is_identity_decomposition_perm l l' :
  perm_eq l l' ->
  is_identity_decomposition_into_orthogonal_idempotents l
  = is_identity_decomposition_into_orthogonal_idempotents l'.
Proof.
move=> perm_l; rewrite !is_identity_decompositionE.
rewrite (perm_big _ perm_l) /= (perm_all _ perm_l).
by rewrite (perm_pairwise orthogonal_to_earlier_sym perm_l).
Qed.

(** X2.  A list accepted by
    is_identity_decomposition_into_orthogonal_idempotents never repeats a
    non-zero element: an element listed at two positions is zero. *)
Theorem is_identity_decomposition_uniq l :
  is_identity_decomposition_into_orthogonal_idempotents l ->
  uniq [seq e <- l | e != 0]
  /\ forall i j, (i < size l)%N -> (j < size l)%N -> i != j ->
       nth 0 l i = nth 0 l j -> nth 0 l i = 0.
Proof.
move=> /is_identity_decompositionP[_ idem orth].
have repeated i j : (i < size l)%N -> (j < size l)%N -> i != j ->
    nth 0 l i = nth 0 l j -> nth 0 l i = 0.
  move=> lti ltj neq_ij eq_ij.
  by rewrite -(idem _ (mem_nth 0 lti)) [X in _ * X]eq_ij orth.
split=> //; set l' := [seq e <- l | e != 0].
apply/(uniqP 0) => i j; rewrite !inE => lti ltj eq_ij; apply/eqP.
apply: contraTT (mem_nth 0 lti) => neq_ij.
have := mem_nth 0 lti; rewrite mem_filter => /andP[nz _].
suff: nth 0 l' i = 0 by move=> e0; rewrite e0 eqxx in nz.
have idem' e : e \in l' -> e * e = e.
  by rewrite mem_filter => /andP[_ /idem].
have orth' : pairwise (@orthogonal_to_earlier A) l'.
  by apply/pairwise_filter/pairwise_orthogonalP.
rewrite -(idem' _ (mem_nth 0 lti)) [X in _ * X]eq_ij.
exact: (pairwise_orthogonalP _ orth').
Qed.

End DecompositionExtras.

(* ---------------------------------------------------------------------- *)
(* Further properties of idempotent_lift and of the lifted idempotents     *)
(* ---------------------------------------------------------------------- *)

Section IdempotentLiftExtras.

Variables A S : pzRingType.
Variable retract : {rmorphism A -> S}.
Variable lift : S -> A.
Implicit Types (x y e z : A) (arg : A + S).

Lemma poly_in_refine x y : poly_in x y -> poly_in x (refine y).
Proof.
move=> xy; apply: poly_inB; first exact: poly_in1.
by apply/poly_inX/poly_inB; [exact: poly_in1 | exact: poly_inX].
Qed.

(** X3.  idempotent_lift returns an idempotent of the algebra unchanged,
    after a single pass through the loop, whatever the radical is; with no
    pass allowed the loop has not exited. *)
Theorem idempotent_lift_idempotent arg fuel :
  lift_argument lift arg * lift_argument lift arg = lift_argument lift arg ->
  idempotent_lift retract lift fuel.+1 arg = Return (lift_argument lift arg)
  /\ idempotent_lift retract lift 0 arg = Pending.
Proof.
set x := lift_argument lift arg => xx.
rewrite !idempotent_liftE -/x -rmorphM xx eqxx /= idempotent_refine //.
by case: fuel => [|fuel] /=; rewrite eqxx.
Qed.

(** X4.  Whatever the algebra and the fuel, an element returned by
    idempotent_lift is a fixed point of x |-> 1 - (1 - x^2)^2, has the same
    retraction as the argument, and commutes with every element that
    commutes with the argument. *)
Theorem idempotent_lift_commutes arg fuel e :
  idempotent_lift retract lift fuel arg = Return e ->
  [/\ refine e = e,
      retract e = retract (lift_argument lift arg)
    & forall z, lift_argument lift arg * z = z * lift_argument lift arg ->
        e * z = z * e].
Proof.
rewrite idempotent_liftE; set x := lift_argument lift arg.
case: eqP => //= idem_p loop_e; split.
- exact: loop_fixed_point loop_e.
- apply: (loop_invariant (P := fun y => retract y = retract x)) loop_e => //.
  by move=> y ry; rewrite retract_refine ry idempotent_refine.
have: poly_in x e.
  by apply: loop_invariant loop_e; [exact: poly_in_refine | exact: poly_in_id].
by move=> xe z xz; apply: xe.
Qed.

Variable N : nat.
Hypothesis radical_nilpotent : forall z, retract z = 0 -> z ^+ N = 0.
Hypothesis liftK : cancel lift retract.
Variable gs : seq S.
Hypothesis gs_decomposition :
  is_identity_decomposition_into_orthogonal_idempotents gs.

(** X5.  The idempotents returned by
    orthogonal_idempotents_central_mod_radical project onto the central
    orthogonal idempotents of the semisimple quotient, in the same order:
    there are as many of them, the retraction of the i-th one is the i-th
    central idempotent, and it is non-zero when that one is. *)
Theorem orthogonal_idempotents_retract :
  exists es,
    [/\ forall fuel, (N < fuel)%N ->
          orthogonal_idempotents_central_mod_radical retract lift gs fuel
          = Return es,
        size es = size gs,
        [seq retract e | e <- es] = gs
      & forall i, (i < size gs)%N ->
          retract (nth 0 es i) = nth 0 gs i
          /\ (nth 0 gs i != 0 -> nth 0 es i != 0)].
Proof.
have [es [ret_es _ retract_es _]] :=
  orthogonal_idempotents_spec radical_nilpotent liftK gs_decomposition.
have size_es : size es = size gs by rewrite -retract_es size_map.
exists es; split=> // i lti.
have retract_i : retract (nth 0 es i) = nth 0 gs i.
  by rewrite -retract_es (nth_map 0) ?size_es.
by split=> //; apply: contraNneq => ei0; rewrite -retract_i ei0 rmorph0.
Qed.

End IdempotentLiftExtras.

(* ---------------------------------------------------------------------- *)
(* Principal ideals and Peirce summands                                    *)
(* ---------------------------------------------------------------------- *)

Section IdealExtras.

Variables (K : fieldType) (A : falgType K).
Implicit Types (a e f u v x : A) (s : side) (es : seq A).

Lemma principal_ideal_peirce a s :
  principal_ideal a s
  = if s is Right then peirce_summand a 1 else peirce_summand 1 a.
Proof.
by case: s; rewrite /principal_ideal /peirce_summand; congr span;
   apply: eq_map => b; rewrite ?mulr1 ?mul1r.
Qed.

Lemma principal_ideal_memP a s v :
  reflect (exists b, v = if s is Right then a * b else b * a)
          (v \in principal_ideal a s).
Proof.
rewrite principal_ideal_peirce.
by case: s; apply: (iffP (peirce_summandP _ _ _)) => -[b ->]; exists b;
   rewrite ?mulr1 ?mul1r.
Qed.

(** X6.  The submodule returned by principal_ideal(a, side) is the set of
    the multiples of [a] on that side: the products b * a for side='left'
    (the default), the products a * b for side='right'. *)
Theorem principal_ideal_multiples a s v :
  v \in principal_ideal a s
  <-> exists b, v = if s is Right then a * b else b * a.
Proof. by split=> /principal_ideal_memP. Qed.

(** X7.  principal_ideal(a, side) contains [a] and is an ideal on its side:
    the left ideal is closed under the products x * v, the right ideal
    under the products v * x; and the left and right principal ideals are
    the Peirce summands peirce_summand(1, a) and peirce_summand(a, 1). *)
Theorem principal_ideal_ideal a :
  [/\ a \in principal_ideal a Left /\ a \in principal_ideal a Right,
      forall x v, v \in principal_ideal a Left ->
        x * v \in principal_ideal a Left,
      forall x v, v \in principal_ideal a Right ->
        v * x \in principal_ideal a Right
    & principal_ideal a Left = peirce_summand 1 a
      /\ principal_ideal a Right = peirce_summand a 1].
Proof.
split.
- by split; apply/principal_ideal_memP; exists 1; rewrite ?mulr1 ?mul1r.
- move=> x v /principal_ideal_memP[b ->]; apply/principal_ideal_memP.
  by exists (x * b); rewrite mulrA.
- move=> x v /principal_ideal_memP[b ->]; apply/principal_ideal_memP.
  by exists (b * x); rewrite mulrA.
by rewrite !principal_ideal_peirce.
Qed.

(** X8.  For idempotents e_i and e_j, the Peirce summand
    peirce_summand(e_i, e_j) is the set of the elements v fixed by
    v |-> e_i * v * e_j. *)
Theorem peirce_summand_fixed_points ei ej v :
  ei * ei = ei -> ej * ej = ej ->
  (v \in peirce_summand ei ej) = (ei * v * ej == v).
Proof.
move=> eii ejj; apply/idP/eqP; first exact: peirce_summand_fixed.
by move=> <-; apply/peirce_summandP; exists v.
Qed.

(** X9.  Peirce summands multiply as matrix units do: the product of an
    element of peirce_summand(e_i, e_j) and an element of
    peirce_summand(e_k, e_l) is in peirce_summand(e_i, e_l), and it is zero
    when e_j * e_k = 0. *)
Theorem peirce_summand_product ei ej ek el u v :
  u \in peirce_summand ei ej -> v \in peirce_summand ek el ->
  u * v \in peirce_summand ei el /\ (ej * ek = 0 -> u * v = 0).
Proof.
move=> /peirce_summandP[a ->] /peirce_summandP[b ->]; split.
  apply/peirce_summandP; exists (a * ej * ek * b).
  by rewrite !mulrA.
move=> ejk; rewrite -!mulrA [ej * (ek * _)]mulrA ejk mul0r.
by rewrite !mulr0.
Qed.

(* The Peirce summands of two decompositions of the identity, one acting on
   each side. *)
Lemma peirce_dimension_sum2 es fs :
  is_identity_decomposition_into_orthogonal_idempotents es ->
  is_identity_decomposition_into_orthogonal_idempotents fs ->
  (\sum_(ei <- es) \sum_(fj <- fs) \dim (peirce_summand ei fj))%N
    = dimension A.
Proof.
case/is_identity_decompositionP=> sum1e ideme orthe.
case/is_identity_decompositionP=> sum1f idemf orthf.
pose n := size es; pose e_ (i : 'I_n) : A := nth 0 es i.
pose m := size fs; pose f_ (j : 'I_m) : A := nth 0 fs j.
have idem_e i : e_ i * e_ i = e_ i by apply/ideme/mem_nth.
have idem_f j : f_ j * f_ j = f_ j by apply/idemf/mem_nth.
have orth_e i j : i != j -> e_ i * e_ j = 0 by move=> ?; apply: orthe.
have orth_f i j : i != j -> f_ i * f_ j = 0 by move=> ?; apply: orthf.
have sum_e : \sum_i e_ i = 1 by rewrite -sum1e (big_nth 0) big_mkord.
have sum_f : \sum_j f_ j = 1 by rewrite -sum1f (big_nth 0) big_mkord.
pose Us (p : 'I_n * 'I_m) := peirce_summand (e_ p.1) (f_ p.2).
have dxU : directv (\sum_p Us p).
  apply/directv_sum_independent => us Uus sum_us [k l] _.
  have <- := peirce_summand_fixed (idem_e k) (idem_f l) (Uus (k, l) isT).
  have -> : us (k, l) = \sum_p us p - \sum_(p | p != (k, l)) us p.
    by rewrite [X in X - _](bigD1 (k, l)) //= addrK.
  rewrite sum_us sub0r mulrN mulNr mulr_sumr mulr_suml big1 ?oppr0 // => -[i j].
  rewrite xpair_eqE negb_and /= => neq_p.
  apply: peirce_summand_orthogonal (Uus (i, j) isT).
  by case/orP: neq_p => neq; [left; apply: orth_e | right; apply: orth_f];
     rewrite // eq_sym.
have fullU : (\sum_p Us p)%VS = fullv.
  apply/eqP; rewrite eqEsubv subvf; apply/subvP => v _.
  have -> : v = \sum_p e_ p.1 * v * f_ p.2.
    rewrite -(pair_big xpredT xpredT (fun i j => e_ i * v * f_ j)) /=.
    rewrite -[LHS]mul1r -[LHS]mulr1 -{1}sum_e -{1}sum_f mulr_suml mulr_suml.
    by apply: eq_bigr => i _; rewrite mulr_sumr.
  by apply: memv_sumr => p _; apply/peirce_summandP; exists v.
rewrite /dimension -fullU (directvP dxU) /=.
rewrite (big_nth 0) big_mkord -/n.
rewrite -(pair_big xpredT xpredT (fun i j => \dim (Us (i, j)))) /=.
by apply: eq_bigr => i _; rewrite (big_nth 0) big_mkord.
Qed.

Lemma one_decomposition :
  is_identity_decomposition_into_orthogonal_idempotents [:: 1 : A].
Proof. by rewrite is_identity_decompositionE big_seq1 /= mulr1 !eqxx. Qed.

Lemma principal_ideal_dimension_sum es s :
  is_identity_decomposition_into_orthogonal_idempotents es ->
  (\sum_(e <- es) \dim (principal_ideal e s))%N = dimension A.
Proof.
move=> decomp_es; case: s.
  rewrite -(peirce_dimension_sum2 one_decomposition decomp_es) big_seq1.
  by apply: eq_bigr => e _; rewrite principal_ideal_peirce.
rewrite -(peirce_dimension_sum2 decomp_es one_decomposition).
by apply: eq_bigr => e _; rewrite big_seq1 principal_ideal_peirce.
Qed.

End IdealExtras.

(* ---------------------------------------------------------------------- *)
(* peirce_decomposition on a given list, isotypic_projective_modules       *)
(* ---------------------------------------------------------------------- *)

Section PeirceDecompositionExtras.

Variables (K : fieldType) (A S : falgType K).
Variable retract : {rmorphism A -> S}.
Variable lift : S -> A.
Variable gs : seq S.
Implicit Types (l es : seq A).

Local Notation grid l := [seq [seq peirce_summand ei ej | ej <- l] | ei <- l].

(** X11.  For every list accepted by the check, peirce_decomposition
    returns a grid of subspaces whose dimensions add up to the dimension of
    the algebra. *)
Theorem peirce_decomposition_dimensions fuel l :
  is_identity_decomposition_into_orthogonal_idempotents l ->
  exists2 summands,
    peirce_decomposition retract lift gs fuel (Some l) true = Return summands
    & (\sum_(row <- summands) \sum_(U <- row) \dim U)%N = dimension A.
Proof.
move=> decomp_l; exists (grid l).
  by rewrite /peirce_decomposition /= decomp_l.
rewrite big_map -(peirce_dimension_sum decomp_l).
by apply: eq_bigr => ei _; rewrite big_map.
Qed.

Variable N : nat.
Hypothesis radical_nilpotent : forall z, retract z = 0 -> z ^+ N = 0.
Hypothesis liftK : cancel lift retract.
Hypothesis gs_decomposition :
  is_identity_decomposition_into_orthogonal_idempotents gs.

(** X12.  isotypic_projective_modules(side) returns (with any fuel above
    the nilpotency exponent) one principal ideal for each central
    orthogonal idempotent of the semisimple quotient, and the dimensions of
    these modules add up to the dimension of the algebra, on the left and
    on the right. *)
Theorem isotypic_projective_modules_dimensions s :
  exists modules,
    [/\ forall fuel, (N < fuel)%N ->
          isotypic_projective_modules retract lift gs fuel s = Return modules,
        size modules = size gs
      & (\sum_(Q <- modules) \dim Q)%N = dimension A].
Proof.
have [es [ret_es _ retract_es decomp_es]] :=
  orthogonal_idempotents_spec radical_nilpotent liftK gs_decomposition.
exists [seq principal_ideal e s | e <- es]; split=> [fuel lt_fuel||].
- by rewrite /isotypic_projective_modules ret_es.
- by rewrite size_map -retract_es size_map.
by rewrite big_map; apply: principal_ideal_dimension_sum.
Qed.

End PeirceDecompositionExtras.

(* ---------------------------------------------------------------------- *)
(* is_commutative                                                          *)
(* ---------------------------------------------------------------------- *)

Section IsCommutativeTheory.

Variables (K : fieldType) (A : falgType K).
Implicit Types (x y b : A).

Local Notation basis := (algebra_basis A).

(* The double loop visits the pairs made of an element and a later one. *)
Lemma later_pairs_from (r : rel A) (P B : seq A) :
  all (fun ib : nat * A => all (r ib.2) (drop ib.1.+1 (P ++ B)))
      (zip (iota (size P) (size B)) B)
  = pairwise r B.
Proof.
elim: B P => [|b B IHB] P //=; congr (_ && _).
  by rewrite -cat_rcons -(size_rcons P b) drop_size_cat.
by rewrite -cat_rcons -(size_rcons P b); apply: IHB.
Qed.

Lemma is_commutativeE :
  is_commutative A
  = pairwise (fun b bp : A => b * bp == bp * b) (rem 1 basis).
Proof. exact: (later_pairs_from _ [::]). Qed.

Lemma basis_commute :
  is_commutative A -> forall b bp, b \in basis -> bp \in basis ->
  b * bp = bp * b.
Proof.
rewrite is_commutativeE => /(pairwiseP 0) comm_rem.
have comm_B b bp : b \in rem 1 basis -> bp \in rem 1 basis -> b * bp = bp * b.
  move=> /(nthP 0)[i lti <-] /(nthP 0)[j ltj <-].
  have [ltij | ltji | -> //] := ltngtP i j.
    exact/eqP/comm_rem.
  exact/esym/eqP/comm_rem.
have uniq_basis : uniq basis by apply/free_uniq/free_algebra_basis.
move=> b bp; have [-> _ _ | neq_b1] := eqVneq b 1; first by rewrite mul1r mulr1.
have [-> _ _ | neq_bp1] := eqVneq bp 1; first by rewrite mul1r mulr1.
by move=> b_in bp_in; apply: comm_B; rewrite mem_rem_uniq // inE ?neq_b1 ?neq_bp1.
Qed.

(** X13.  is_commutative() returns True if and only if the algebra is
    commutative: testing the pairs made of a basis element other than the
    unit and of a later one decides whether all the products commute. *)
Theorem is_commutative_correct :
  is_commutative A <-> forall x y : A, x * y = y * x.
Proof.
split=> [comm_basis x y | comm_A]; last first.
  by rewrite is_commutativeE; apply/(pairwiseP 0) => i j _ _ _; apply/eqP.
have basisE z : z = \sum_i coord basis i z *: basis`_i.
  by apply/coord_vbasis/memvf.
rewrite [x]basisE [y]basisE !big_distrlr /= exchange_big /=.
apply: eq_bigr => j _; apply: eq_bigr => i _.
rewrite -!scalerAl -!scalerAr !scalerA [in RHS]mulrC.
by rewrite (basis_commute comm_basis) ?mem_nth ?size_tuple.
Qed.

End IsCommutativeTheory.

(* ---------------------------------------------------------------------- *)
(* ElementMethods: to_matrix and __invert__                                *)
(* ---------------------------------------------------------------------- *)

Section ToMatrixExtras.

Variables (K : fieldType) (A : falgType K).
Implicit Types (x y : A) (s : side) (v : 'cV[K]_(dimension A)).

Local Notation basis := (algebra_basis A).

(* The matrix of the right multiplication by [x]. *)
Lemma to_matrix_right_mul x y :
  to_matrix x *%R Right *m to_vector y = to_vector (y * x).
Proof.
apply/colP => i; rewrite !mxE -[y in RHS]to_vectorK /from_vector.
rewrite mulr_suml linear_sum /=; apply: eq_bigr => j _.
by rewrite !mxE -scalerAl linearZ /= mulrC.
Qed.

Lemma to_matrix_action x s y :
  to_matrix x *%R s *m to_vector y
  = to_vector (if s is Right then y * x else x * y).
Proof. by case: s; [exact: to_matrix_mul | exact: to_matrix_right_mul]. Qed.

(* A matrix is determined by its products with the vectors of elements. *)
Lemma to_vector_ext (M M' : 'M[K]_(dimension A)) :
  (forall y, M *m to_vector y = M' *m to_vector y) -> M = M'.
Proof.
move=> eqM; apply/matrixP => i j.
have := eqM (from_vector (delta_mx j 0)); rewrite from_vectorK -!colE.
by move/colP/(_ i); rewrite !mxE.
Qed.

(** X14.  The matrix returned by x.to_matrix(side=...) is the matrix of the
    multiplication by [x] in the basis of the algebra: applied to the
    vector of [y] it gives the vector of x * y for side='left' (the
    default), and the vector of y * x for side='right'. *)
Theorem to_matrix_vector x s y :
  to_matrix x *%R s *m to_vector y
  = to_vector (if s is Right then y * x else x * y).
Proof. exact: to_matrix_action. Qed.

(** X15.  to_matrix is a faithful representation of the algebra: the unit
    has the identity matrix, the matrix of a sum is the sum of the
    matrices, the matrix of a product x * y is the product of the matrices
    of [x] and [y] for side='left' and of [y] and [x] for side='right', and
    two elements with the same matrix are equal. *)
Theorem to_matrix_representation x y s :
  [/\ to_matrix (1 : A) *%R s = 1%:M,
      to_matrix (x + y) *%R s = to_matrix x *%R s + to_matrix y *%R s,
      to_matrix (x * y) *%R s
      = if s is Right then to_matrix y *%R s *m to_matrix x *%R s
        else to_matrix x *%R s *m to_matrix y *%R s
    & to_matrix x *%R s = to_matrix y *%R s -> x = y].
Proof.
split.
- apply: to_vector_ext => z; rewrite to_matrix_action mul1mx.
  by case: s; rewrite ?mul1r ?mulr1.
- apply: to_vector_ext => z; rewrite mulmxDl !to_matrix_action.
  by case: s; rewrite ?mulrDl ?mulrDr //; apply/colP => i; rewrite !mxE linearD.
- case: s; apply: to_vector_ext => z; rewrite -mulmxA !to_matrix_action.
    by rewrite mulrA.
  by rewrite mulrA.
move=> eq_xy; apply: (can_inj (@to_vectorK _ A)).
have := congr1 (mulmx^~ (to_vector 1)) eq_xy; rewrite !to_matrix_action.
by case: s {eq_xy}; rewrite ?mul1r ?mulr1.
Qed.

End ToMatrixExtras.


Section InvertExtras.

Variables (K : fieldType) (A : falgType K).
Implicit Types (x y z : A) (v : 'cV[K]_(dimension A)).

Local Notation basis := (algebra_basis A).

Variable one_basis : result A (option 'I_(dimension A)).
Variable base_ring : pred K.
Variable solve_right :
  'M[K]_(dimension A) -> 'cV[K]_(dimension A) -> option 'cV[K]_(dimension A).

(* The contracts of alg.one_basis() and of solve_right, which returns a
   solution of the system exactly when there is one; the base ring
   contains zero. *)
Hypothesis one_basis_caught : exists ob, try_one_basis one_basis = Return ob.
Hypothesis one_basis_unit :
  forall k, try_one_basis one_basis = Return (Some k) -> basis`_k = 1.
Hypothesis solve_right_solution :
  forall M e v, solve_right M e = Some v -> M *m v = e.
Hypothesis solve_right_none :
  forall M e, solve_right M e = None -> forall v, M *m v != e.
Hypothesis base_ring0 : 0 \in base_ring.

Local Notation inverse_of := (invert one_basis base_ring solve_right).
Local Notation solved_inverse := (invert_by_solving base_ring solve_right).

Lemma inverse_unique x y z : x * y = 1 -> x * z = 1 -> y = z.
Proof.
move=> xy1 xz1; have yx1 := right_inverse_left xy1.
by rewrite -[y]mulr1 -xz1 mulrA yx1 mul1r.
Qed.

Lemma coord_term k c i : coord basis i (term k c) = if i == k then c else 0.
Proof.
rewrite /term linearZ /= coord_free ?free_algebra_basis //.
by rewrite eq_sym; case: eqP => _; rewrite /= ?mulr1 ?mulr0.
Qed.

Lemma invert_by_solving_returnP x y :
  solved_inverse x = Return y
  <-> x * y = 1 /\ forall i, coord basis i y \in base_ring.
Proof.
split=> [solved_y | [xy1 y_ring]].
  have [xy1 _] := invert_by_solving_inverse solve_right_solution solved_y.
  split=> // i; move: solved_y; rewrite invert_by_solvingE.
  case: solve_right => [v|] //; case: ifP => // /forallP/(_ i) vi [<-].
  by have /colP/(_ i) := from_vectorK v; rewrite mxE => ->.
rewrite invert_by_solvingE.
case solveE: solve_right => [v|]; last first.
  have := solve_right_none solveE (to_vector y).
  by rewrite to_matrix_mul xy1 eqxx.
have xv1 : x * from_vector v = 1.
  apply: (can_inj (@to_vectorK _ A)); rewrite -to_matrix_mul from_vectorK.
  exact: solve_right_solution solveE.
have vE : from_vector v = y := inverse_unique xv1 xy1.
rewrite vE; case: ifP => // /forallP[] i.
by rewrite -[v]from_vectorK vE mxE.
Qed.

Lemma invert_returnP x y :
  inverse_of x = Return y
  <-> x * y = 1 /\ forall i, coord basis i y \in base_ring.
Proof.
have [ob obE] := one_basis_caught.
pose is_direct (ob : option 'I_(dimension A)) :=
  if ob is Some k then
    (size (monomial_coefficients x) == 1%N)
    && (k \in [seq kc.1 | kc <- monomial_coefficients x])
  else false.
case direct: (is_direct ob); last first.
  have -> : inverse_of x = solved_inverse x.
    by rewrite /invert obE /=; case: ob direct {obE} => [k /= ->|].
  exact: invert_by_solving_returnP.
case: ob obE direct => // k obE; rewrite /is_direct => direct.
have -> : inverse_of x =
    if (coord basis k x)^-1 \in base_ring
    then Return (term k (coord basis k x)^-1)
    else Raise (cannot_invert x).
  by rewrite /invert /coerce obE /= direct; case: ifP.
have [c_neq0 xE] := monomial_coefficients_single direct.
set c := coord basis k x in c_neq0 xE *.
have xt1 : x * term k c^-1 = 1.
  rewrite [X in X * _]xE /term (one_basis_unit obE).
  by rewrite -scalerAl mul1r scalerA mulfV // scale1r.
split=> [|[xy1 y_ring]].
  case: ifP => // c_ring [<-]; split=> // i.
  by rewrite coord_term; case: ifP.
have <- := inverse_unique xt1 xy1.
by have := y_ring k; rewrite -(inverse_unique xt1 xy1) coord_term eqxx => ->.
Qed.

(** X16.  __invert__ returns [y] if and only if [y] is an inverse of the
    element whose coordinates all belong to the base ring: an invertible
    element whose inverse has its coordinates in the base ring is always
    inverted, by the direct branch or by solving the linear system. *)
Theorem invert_returns_iff x y :
  invert one_basis base_ring solve_right x = Return y
  <-> x * y = 1 /\ forall i, coord (algebra_basis A) i y \in base_ring.
Proof. exact: invert_returnP. Qed.

(** X17.  __invert__ rejects the zero divisors: when x * z = 0 for some
    non-zero z (in particular when x = 0), it raises the ValueError
    "cannot invert self (= %s)" made with the element. *)
Theorem invert_zero_divisor x z :
  z != 0 -> x * z = 0 ->
  invert one_basis base_ring solve_right x = Raise (cannot_invert x).
Proof.
move=> z_neq0 xz0.
have not_unit y : x * y <> 1.
  move=> /right_inverse_left yx1; case/eqP: z_neq0.
  by rewrite -[z]mul1r -yx1 -mulrA xz0 mulr0.
have [ob obE] := one_basis_caught.
case invE: (inverse_of x) => [y|e|].
- by have /invert_returnP[/not_unit] := invE.
- move: invE; rewrite /invert obE /=.
  have solved :
      solved_inverse x = Raise e -> e = cannot_invert x.
    case: (@invert_by_solving_cases _ _ base_ring _ solve_right_solution x).
      by case=> y /invert_by_solving_returnP[/not_unit].
    by move=> -> [].
  case: ob {obE} => [k|] //; last by move=> /solved ->.
  case: ifP => _; last by move=> /solved ->.
  by rewrite /coerce; case: ifP => //= _ [<-].
move: invE; rewrite /invert obE /=.
have solved : solved_inverse x <> Pending.
  by rewrite invert_by_solvingE; case: solve_right => [v|] //; case: ifP.
case: ob {obE} => [k|] //.
by case: ifP => // _; rewrite /coerce; case: ifP.
Qed.

End InvertExtras.

Section InvertField.

Variables (K : fieldType) (A : falgType K).
Implicit Types (x y : A).

Local Notation basis := (algebra_basis A).

Variable one_basis : result A (option 'I_(dimension A)).
Variable solve_right :
  'M[K]_(dimension A) -> 'cV[K]_(dimension A) -> option 'cV[K]_(dimension A).

Hypothesis one_basis_caught : exists ob, try_one_basis one_basis = Return ob.
Hypothesis one_basis_unit :
  forall k, try_one_basis one_basis = Return (Some k) -> basis`_k = 1.
Hypothesis solve_right_solution :
  forall M e v, solve_right M e = Some v -> M *m v = e.
Hypothesis solve_right_none :
  forall M e, solve_right M e = None -> forall v, M *m v != e.

(** X18.  Over a field, inverting twice gives the element back: when
    __invert__ returns [y] on [x], it returns [x] on [y]; and it returns on
    every invertible element. *)
Theorem invert_involutive x y :
  (invert one_basis predT solve_right x = Return y ->
   invert one_basis predT solve_right y = Return x)
  /\ (x * y = 1 -> invert one_basis predT solve_right x = Return y).
Proof.
have retP := invert_returnP one_basis_caught one_basis_unit
  solve_right_solution solve_right_none (isT : 0 \in predT).
split=> [/retP[/right_inverse_left yx1 _] | xy1]; apply/retP; split=> //.
Qed.

End InvertField.

(* ---------------------------------------------------------------------- *)
(* radical_basis: the trace form, small dimensions, prime fields           *)
(* ---------------------------------------------------------------------- *)

Section DictTheory.

Variables (Key : eqType) (V : Type).
Implicit Types (d items : seq (Key * V)) (k : Key) (v : V).

Lemma dict_set_new d k v :
  k \notin [seq kv.1 | kv <- d] -> dict_set d k v = rcons d (k, v).
Proof.
elim: d => [|kv d IHd] //=; rewrite inE negb_or eq_sym => /andP[/negPf-> k_d].
by rewrite IHd.
Qed.

Lemma foldl_dict_set_uniq d items :
  uniq [seq kv.1 | kv <- d ++ items] ->
  foldl (fun d kv => dict_set d kv.1 kv.2) d items = d ++ items.
Proof.
elim: items d => [|kv items IHitems] d /=; first by rewrite cats0.
move=> uniq_all; have k_d : kv.1 \notin [seq kv.1 | kv <- d].
  move: uniq_all; rewrite map_cat cat_uniq /= => /and3P[_ /norP[+ _] _].
  by [].
by rewrite dict_set_new // -surjective_pairing -cat_rcons IHitems ?cat_rcons.
Qed.

(* A dict built from items with distinct keys lists these items. *)
Lemma dict_of_uniq items :
  uniq [seq kv.1 | kv <- items] -> dict_of items = items.
Proof. exact: (@foldl_dict_set_uniq [::]). Qed.

End DictTheory.

Section DictSum.

Variables (Key : eqType) (R : nmodType).
Implicit Types (d : seq (Key * R)) (k : Key).

(* Looking a key up in a dict: the sum of the values stored under it. *)
Lemma dict_get_sum d k :
  uniq [seq kv.1 | kv <- d] ->
  dict_get d k 0 = \sum_(kv <- d | kv.1 == k) kv.2.
Proof.
elim: d => [|kv d IHd] /=; first by rewrite big_nil.
case/andP=> k_d uniq_d; rewrite big_cons; case: eqP => [kvk | _]; last exact: IHd.
rewrite big1_seq ?addr0 // => kv' /andP[/eqP kv'k kv'_d].
by case/negP: k_d; rewrite kvk -kv'k; apply: map_f.
Qed.

End DictSum.

Section TraceForm.

Variable F : comNzRingType.
Variable n : nat.
Variable product_on_basis : 'I_n -> 'I_n -> seq ('I_n * F).

Hypothesis items_uniq :
  forall y i, uniq [seq jc.1 | jc <- product_on_basis y i].

Local Notation L := (basis_on_left_matrix product_on_basis).

(* The items {(i,j): c for i in keys for j,c in product_on_basis(y,i)}. *)
Let items (y : 'I_n) : seq ('I_n * 'I_n * F) :=
  flatten [seq [seq ((i, jc.1), jc.2) | jc <- product_on_basis y i]
          | i <- enum 'I_n].

Lemma items_keys_uniq y : uniq [seq ijc.1 | ijc <- items y].
Proof.
rewrite /items; elim: (enum 'I_n) (enum_uniq 'I_n) => [|i keys IHkeys] //=.
case/andP=> i_keys uniq_keys; rewrite map_cat cat_uniq IHkeys // andbT.
rewrite -map_comp (@eq_map _ _ _ (pair i \o fst)) // map_comp.
have inj_pair : injective (pair i : 'I_n -> 'I_n * 'I_n) by move=> j j' [].
rewrite (map_inj_uniq inj_pair) items_uniq /=.
apply/hasPn => ij /mapP[ijc /flattenP[row /mapP[i' i'_keys ->]]].
case/mapP=> jc _ -> -> /=; apply/negP => /mapP[j _ [i'E _]].
by rewrite -i'E i'_keys in i_keys.
Qed.

Lemma coefficientE i (l : seq ('I_n * F)) :
  coefficient i l = \sum_(jc <- l | jc.1 == i) jc.2.
Proof. by rewrite /coefficient python_sumE big_map big_filter. Qed.

Lemma items_get x i j :
  dict_get (dict_of (items x)) (j, i) 0 = L x i j.
Proof.
rewrite dict_of_uniq ?items_keys_uniq // dict_get_sum ?items_keys_uniq //.
rewrite mxE coefficientE /items big_flatten /= big_map.
rewrite (bigD1_seq j) ?mem_enum ?enum_uniq //= [X in _ + X]big1 ?addr0.
  move=> a neq_aj; rewrite big_map big_pred0 // => jc.
  by rewrite /= xpair_eqE (negPf neq_aj).
by rewrite big_map; apply: eq_bigl => jc; rewrite /= xpair_eqE eqxx.
Qed.

Lemma sum_by_key (f : 'I_n -> F) (l : seq ('I_n * F)) :
  \sum_(jc <- l) f jc.1 * jc.2 = \sum_j f j * coefficient j l.
Proof.
under [RHS]eq_bigr => j _ do rewrite coefficientE mulr_sumr.
rewrite (exchange_big_dep xpredT) //=; apply: eq_bigr => jc _.
by rewrite (big_pred1 jc.1) // => j; rewrite eq_sym.
Qed.

(** X19.  Over a field of characteristic 0 the matrix whose kernel
    radical_basis() takes is the matrix of the trace form: it has one row
    and one column for each basis key, and its entry in the row of y and
    the column of x is the trace of the product of the left regular
    matrices of the basis elements x and y. *)
Theorem trace_form_matrix_trace :
  size (trace_form_matrix product_on_basis) = n
  /\ forall y x : 'I_n,
       size (nth [::] (trace_form_matrix product_on_basis) y) = n
       /\ nth 0 (nth [::] (trace_form_matrix product_on_basis) y) x
          = \tr (L x *m L y).
Proof.
pose cache := [seq dict_of (items y) | y <- enum 'I_n].
have size_cache : size cache = n by rewrite size_map size_enum_ord.
have nth_cache (k : 'I_n) : nth [::] cache k = dict_of (items k).
  by rewrite /cache (nth_map k) ?size_enum_ord // nth_ord_enum.
have -> : trace_form_matrix product_on_basis
    = [seq [seq python_sum
                  [seq dict_get x (ijc.1.2, ijc.1.1) 0 * ijc.2 | ijc <- y]
           | x <- cache]
      | y <- cache] by [].
rewrite size_map size_cache; split=> // y x.
rewrite (nth_map [::]) ?size_cache // size_map size_cache; split=> //.
rewrite (nth_map [::]) ?size_cache // !nth_cache python_sumE big_map.
rewrite [in X in \sum_(_ <- X) _]dict_of_uniq ?items_keys_uniq //.
rewrite {1}/items big_flatten /= big_map.
rewrite /mxtrace big_enum /=; apply: eq_bigr => i _.
rewrite big_map /= mxE.
under eq_bigr => jc _ do rewrite items_get.
rewrite (sum_by_key (fun j => L x i j)); apply: eq_bigr => j _.
by rewrite [L y j i]mxE.
Qed.

End TraceForm.


Section RadicalBasisExtras.

Variable F : comNzRingType.
Variable is_field : bool.
Variable characteristic : nat.
Variable n : nat.
Variable product_on_basis : 'I_n -> 'I_n -> seq ('I_n * F).
Variable one_vector : 'cV[F]_n.
Variable kernel_basis : seq (seq F) -> seq (seq F).

Implicit Types (B : seq 'M[F]_n) (s q fuel : nat).

(* In a field of q <= p elements no s = 1, p, p^2, ... has 1 < s < q. *)
Lemma radical_loop_no_roots q has_nth_root nth_root fractional_power
    has_nth_root' nth_root' fractional_power' fuel s B :
  (q <= characteristic)%N -> (s == 1%N) || (characteristic <= s)%N ->
  radical_loop characteristic (Some q) kernel_basis has_nth_root nth_root
    fractional_power fuel s B
  = radical_loop characteristic (Some q) kernel_basis has_nth_root' nth_root'
      fractional_power' fuel s B.
Proof.
move=> le_qp; elim: fuel s B => [|fuel IHfuel] s B s_ok //=.
case: ifP => // _.
have -> : takes_roots (Some q) s = false.
  rewrite /takes_roots; case/orP: s_ok => [/eqP-> // | le_ps].
  by rewrite [(s < q)%N]ltnNge (leq_trans le_qp le_ps) andbF.
apply: IHfuel; case/orP: s_ok => [/eqP-> | le_ps]; first by rewrite muln1 leqnn orbT.
case: s le_ps => [|s] le_ps; last by rewrite leq_pmulr ?orbT.
by move: le_ps; rewrite leqn0 => /eqP->; rewrite orbT.
Qed.

(** X20.  Over a field with as many elements as its characteristic (a prime
    field GF(p)), radical_basis() never takes a root: its result does not
    depend on the root functions nth_root and x**(1/s), nor on which of the
    two the base ring provides. *)
Theorem radical_basis_prime_field q has_nth_root nth_root fractional_power
    has_nth_root' nth_root' fractional_power' fuel :
  (q <= characteristic)%N ->
  radical_basis is_field characteristic (Some q) product_on_basis one_vector
    kernel_basis has_nth_root nth_root fractional_power fuel
  = radical_basis is_field characteristic (Some q) product_on_basis one_vector
      kernel_basis has_nth_root' nth_root' fractional_power' fuel.
Proof.
move=> le_qp; rewrite /radical_basis.
case: ifP => // _; case: ifP => // _.
case: (regular_matrices product_on_basis) => [|b B] //.
by rewrite (radical_loop_no_roots _ _ _ has_nth_root' nth_root'
              fractional_power').
Qed.

(** X21.  When the dimension of the algebra is positive and smaller than
    the characteristic p, radical_basis() makes a single round, with s = 1
    and without taking roots: it returns the products with the vector of the
    unit of the combinations of the left regular matrices given by the left
    kernel of the matrix G of that round. *)
Theorem radical_basis_small_dimension order has_nth_root nth_root
    fractional_power fuel :
  is_field -> (0 < n)%N -> (n < characteristic)%N ->
  let B := regular_matrices product_on_basis in
  radical_basis is_field characteristic order product_on_basis one_vector
    kernel_basis has_nth_root nth_root fractional_power fuel.+1
  = Return [seq combination c B *m one_vector
           | c <- kernel_basis (gram_matrix 1 B (B ++ [:: 1%:M]))].
Proof.
move=> fieldF n_gt0 lt_np B; rewrite /radical_basis fieldF /=.
have /negPf-> : characteristic != 0%N by rewrite -lt0n (leq_trans _ lt_np).
have [b [B' BE]] := regular_matrices_cons product_on_basis n_gt0.
rewrite BE -BE -/B n_gt0 muln1.
have -> : forall B1, radical_loop characteristic order kernel_basis
    has_nth_root nth_root fractional_power fuel characteristic B1 = Return B1.
  by move=> B1; case: fuel => [|fuel'] /=; rewrite leqNgt lt_np.
by rewrite /= -map_comp.
Qed.

End RadicalBasisExtras.

(** X22.  For an algebra of dimension 0, radical_basis() raises IndexError
    over a field of positive characteristic (there is no first left regular
    matrix to take the identity from), and returns the vectors of the kernel
    of the empty matrix over a field of characteristic 0. *)
Theorem radical_basis_zero_dimension (F : comNzRingType) p order
    (product_on_basis : 'I_0 -> 'I_0 -> seq ('I_0 * F)) one_vector
    kernel_basis has_nth_root nth_root fractional_power fuel :
  radical_basis true p order product_on_basis one_vector kernel_basis
    has_nth_root nth_root fractional_power fuel
  = if p == 0%N then Return [seq vector_of_seq 0 vec | vec <- kernel_basis [::]]
    else Raise (external_error unit IndexError).
Proof.
rewrite /radical_basis /=; case: ifP => _.
  by rewrite /trace_form_matrix; case: (enum 'I_0) (size_enum_ord 0).
by rewrite /regular_matrices; case: (enum 'I_0) (size_enum_ord 0).
Qed.


(* ---------------------------------------------------------------------- *)
(* The cellular involution                                                 *)
(* ---------------------------------------------------------------------- *)

Section CellularTheory.

Variables (Lambda T : eqType) (R : nmodType).
Implicit Types (M : seq (Lambda * T * T * R)) (mu : Lambda) (s t : T).

Local Notation swap := (fun i : Lambda * T * T => (i.1.1, i.2, i.1.2)).

Lemma swap_inj : injective swap.
Proof. by case=> [[mu s] t] [[mu' s'] t'] [-> -> ->]. Qed.

Lemma dict_get_mem (Key V : eqType) (d : seq (Key * V)) v0 kv :
  uniq [seq kv.1 | kv <- d] -> kv \in d -> dict_get d kv.1 v0 = kv.2.
Proof.
elim: d => [|kv0 d IHd] //= /andP[k_d uniq_d]; rewrite inE.
case/predU1P=> [-> | kv_d]; first by rewrite eqxx.
case: eqP => [kv0E | _]; last exact: IHd.
by case/negP: k_d; rewrite kv0E; apply: map_f.
Qed.

Lemma cellular_involutionE M :
  uniq [seq kv.1 | kv <- M] ->
  cellular_involution M = [seq (swap kv.1, kv.2) | kv <- M].
Proof.
move=> uniq_M; rewrite /cellular_involution -map_comp.
have -> : [seq ((fun i => (swap i, dict_get M i 0)) \o fst) kv | kv <- M]
          = [seq (swap kv.1, kv.2) | kv <- M].
  by apply/eq_in_map => kv kv_M /=; rewrite dict_get_mem.
rewrite dict_of_uniq // -map_comp.
by rewrite (@eq_map _ _ _ (swap \o fst)) // map_comp map_inj_uniq //; apply: swap_inj.
Qed.

(** X23.  On an algebra that is its own cellular basis, the cellular
    involution exchanges the two cell indices: the coefficient of
    (mu, t, s) in the image of x is the coefficient of (mu, s, t) in x, the
    image has as many terms as x, and applying the involution twice gives x
    back. *)
Theorem cellular_involution_involutive M :
  uniq [seq kv.1 | kv <- M] ->
  [/\ cellular_involution (cellular_involution M) = M,
      size (cellular_involution M) = size M
    & forall mu s t,
        dict_get (cellular_involution M) (mu, t, s) 0
        = dict_get M (mu, s, t) 0].
Proof.
move=> uniq_M; have invE := cellular_involutionE uniq_M.
have uniq_inv : uniq [seq kv.1 | kv <- cellular_involution M].
  rewrite invE -map_comp (@eq_map _ _ _ (swap \o fst)) // map_comp.
  by rewrite map_inj_uniq //; apply: swap_inj.
split=> [||mu s t].
- rewrite (cellular_involutionE uniq_inv) invE -map_comp.
  by rewrite -[RHS]map_id; apply: eq_map => -[[[mu s] t] c].
- by rewrite invE size_map.
rewrite invE {uniq_inv invE}; elim: M uniq_M => [|[[[mu' s'] t'] c] M IHM] //=.
case/andP=> _ /IHM->; rewrite !xpair_eqE /=.
by rewrite andbAC.
Qed.

End CellularTheory.

(* ---------------------------------------------------------------------- *)
(* Examples                                                                *)
(* ---------------------------------------------------------------------- *)

Lemma mod2_radical_nilpotent (z : 'Z_4) : mod2 z = 0 -> z ^+ 2 = 0.
Proof.
by case: z => [[|[|[|[|z]]]] ltz] // /(congr1 val) //= _;
   rewrite expr2; apply/val_inj.
Qed.

Lemma lift2K : cancel lift2 mod2.
Proof. by case=> [[|[|x]] ltx] //; apply/val_inj. Qed.

Lemma mod2_decomposition :
  is_identity_decomposition_into_orthogonal_idempotents [:: 1 : 'Z_2].
Proof. by rewrite is_identity_decompositionE big_seq1. Qed.

Lemma diagonal_idempotents_decomposition :
  is_identity_decomposition_into_orthogonal_idempotents diagonal_idempotents.
Proof.
rewrite is_identity_decompositionE /diagonal_idempotents.
rewrite big_cons big_seq1 /= /orthogonal_to_earlier.
rewrite -!mulmxE !mul_delta_mx !mul_delta_mx_0 // !eqxx /= andbT.
apply/eqP/matrixP => i j; rewrite !mxE.
by case: i => [[|[|i]] lti] //; case: j => [[|[|j]] ltj].
Qed.

Lemma mod6_radical_nilpotent (z : 'Z_12) : mod6 z = 0 -> z ^+ 2 = 0.
Proof.
by case: z => [[|[|[|[|[|[|[|[|[|[|[|[|z]]]]]]]]]]]] ?] // /(congr1 val) //= _; rewrite expr2; apply/val_inj.
Qed.

Lemma lift6K : cancel lift6 mod6.
Proof. by case=> [[|[|[|[|[|[|x]]]]]] ?] //; apply/val_inj. Qed.

Lemma central_idempotents6_decomposition :
  is_identity_decomposition_into_orthogonal_idempotents central_idempotents6.
Proof. by []. Qed.

(* The lift of 3 is 9 (a refinement step is needed), the lift of 4 is 4. *)
Lemma central_idempotents6_values :
  [seq val e | e <- if orthogonal_idempotents_central_mod_radical mod6 lift6
                         central_idempotents6 3 is Return es then es else [::]]
  = [:: 9; 4]%N.
Proof. by vm_compute. Qed.

Lemma central_idempotents6_lifts :
  orthogonal_idempotents_central_mod_radical mod6 lift6 central_idempotents6 3
  = Return [:: 9%:R; 4%:R].
Proof.
have := central_idempotents6_values.
case: (orthogonal_idempotents_central_mod_radical _ _ _ _) => // es.
have -> : [:: 9; 4]%N = [seq val e | e <- [:: 9%:R; 4%:R : 'Z_12]] by [].
by move=> /(inj_map val_inj)->.
Qed.

Lemma idempotent_lift_fixed_point_witness :
  (forall z : 'Z_4, mod2 z = 0 -> z ^+ 2 = 0)
  /\ (mod2 (lift_argument lift2 (inl 3%:R)) * mod2 (lift_argument lift2 (inl 3%:R))
      = mod2 (lift_argument lift2 (inl 3%:R))
      /\ exists e : 'Z_4,
           [/\ forall fuel, (2 < fuel)%N ->
                 idempotent_lift mod2 lift2 fuel (inl 3%:R) = Return e,
               forall fuel e',
                 idempotent_lift mod2 lift2 fuel (inl 3%:R) = Return e' ->
                 e' = e,
               refine e = e,
               e * e = e
             & mod2 e = mod2 (lift_argument lift2 (inl 3%:R))]).
Proof.
have idem3 : mod2 (lift_argument lift2 (inl 3%:R))
               * mod2 (lift_argument lift2 (inl 3%:R))
             = mod2 (lift_argument lift2 (inl 3%:R)).
  exact/val_inj.
split; [exact: mod2_radical_nilpotent | split=> //].
exact: (idempotent_lift_fixed_point mod2_radical_nilpotent idem3).
Defined.

Lemma orthogonal_idempotents_decomposition_witness :
  [/\ forall z : 'Z_12, mod6 z = 0 -> z ^+ 2 = 0,
      cancel lift6 mod6
    & is_identity_decomposition_into_orthogonal_idempotents
        central_idempotents6]
  /\ (exists es : seq 'Z_12,
        [/\ forall fuel, (2 < fuel)%N ->
              orthogonal_idempotents_central_mod_radical mod6 lift6
                central_idempotents6 fuel = Return es,
            forall fuel es',
              orthogonal_idempotents_central_mod_radical mod6 lift6
                central_idempotents6 fuel = Return es' -> es' = es,
            algebra_sum es = 1,
            forall e, e \in es -> e * e = e
          & (forall i j, (i < size es)%N -> (j < size es)%N -> i != j ->
               nth 0 es i * nth 0 es j = 0 /\ nth 0 es j * nth 0 es i = 0)
            /\ is_identity_decomposition_into_orthogonal_idempotents es])
  /\ orthogonal_idempotents_central_mod_radical mod6 lift6
       central_idempotents6 3 = Return [:: 9%:R; 4%:R].
Proof.
split; first split.
- exact: mod6_radical_nilpotent.
- exact: lift6K.
- exact: central_idempotents6_decomposition.
split; last exact: central_idempotents6_lifts.
exact: (orthogonal_idempotents_decomposition mod6_radical_nilpotent lift6K
          central_idempotents6_decomposition).
Defined.

Lemma idfun_radical_nilpotent (R : pzRingType) (z : R) :
  idfun z = 0 -> z ^+ 1 = 0.
Proof. by rewrite expr1. Qed.

Lemma idK (T : Type) : cancel (@id T) idfun.
Proof. by []. Qed.

Lemma peirce_dimensions_witness :
  [/\ forall z : 'M[rat]_2, idfun z = 0 -> z ^+ 1 = 0,
      cancel (@id 'M[rat]_2) idfun
    & is_identity_decomposition_into_orthogonal_idempotents
        diagonal_idempotents]
  /\ exists es : seq 'M[rat]_2,
       [/\ forall fuel, (1 < fuel)%N ->
             orthogonal_idempotents_central_mod_radical idfun id
               diagonal_idempotents fuel = Return es,
           forall fuel es',
             orthogonal_idempotents_central_mod_radical idfun id
               diagonal_idempotents fuel = Return es' -> es' = es,
           forall fuel, (1 < fuel)%N ->
             peirce_decomposition idfun id diagonal_idempotents fuel None true
             = Return [seq [seq peirce_summand ei ej | ej <- es] | ei <- es]
         & (\sum_(ei <- es) \sum_(ej <- es) \dim (peirce_summand ei ej))%N
           = dimension 'M[rat]_2].
Proof.
split.
  split; [exact: idfun_radical_nilpotent | exact: idK |].
  exact: diagonal_idempotents_decomposition.
exact: (peirce_dimensions (retract := idfun) (lift := id)
          (@idfun_radical_nilpotent _) (@idK _)
          diagonal_idempotents_decomposition).
Defined.

Section PairAlgebra.

Local Notation QxQ := (rat^o * rat^o)%type.
Implicit Types (a b c d : rat^o).

Lemma pairM a b c d : (a, b) * (c, d) = (a * c, b * d) :> QxQ.
Proof. by []. Qed.

Lemma pairD a b c d : (a, b) + (c, d) = (a + c, b + d) :> QxQ.
Proof. by []. Qed.

Lemma pair1 : 1 = (1, 1) :> QxQ.
Proof. by []. Qed.

Lemma pair0 : 0 = (0, 0) :> QxQ.
Proof. by []. Qed.

Lemma pair_idempotents_decomposition :
  is_identity_decomposition_into_orthogonal_idempotents pair_idempotents.
Proof.
by rewrite is_identity_decompositionE /pair_idempotents big_cons big_seq1.
Qed.

Lemma pair_idempotents_neq0 (e : QxQ) : e \in pair_idempotents -> e != 0.
Proof.
by rewrite !inE pair0 => /orP[] /eqP->; rewrite xpair_eqE oner_eq0 ?andbF.
Qed.

Lemma dimension_pair : dimension QxQ = 2.
Proof. by rewrite /dimension dimvf. Qed.

Lemma dimv_mem_gt0 (U : {vspace QxQ}) (v : QxQ) :
  v \in U -> v != 0 -> (0 < \dim U)%N.
Proof.
move=> vU; apply: contraNT; rewrite -leqNgt leqn0 dimv_eq0 => /eqP U0.
by rewrite -memv0 -U0.
Qed.

Lemma pair_principal_ideal_dimension (e : QxQ) :
  e \in pair_idempotents -> \dim (principal_ideal e Left) = 1%N.
Proof.
have gt0 (g : QxQ) : g \in pair_idempotents ->
    (0 < \dim (principal_ideal g Left))%N.
  move=> g_in; apply: dimv_mem_gt0 (pair_idempotents_neq0 g_in).
  by apply/principal_ideal_memP; exists 1; rewrite mul1r.
have in1 : (1, 0) \in pair_idempotents by rewrite !inE eqxx.
have in2 : (0, 1) \in pair_idempotents by rewrite !inE eqxx orbT.
have := principal_ideal_dimension_sum Left pair_idempotents_decomposition.
rewrite dimension_pair /pair_idempotents big_cons big_seq1.
move: (gt0 _ in1) (gt0 _ in2) => + + + e_in.
have{e_in} [->|->] : e = (1, 0) \/ e = (0, 1).
- by move: e_in; rewrite !inE => /orP[] /eqP->; [left | right].
- move: (\dim (principal_ideal (1, 0) _)) (\dim (principal_ideal (0, 1) _)).
  by move=> [|[|a]] [|[|b]] //; rewrite ?addnS ?addSn.
move: (\dim (principal_ideal (1, 0) _)) (\dim (principal_ideal (0, 1) _)).
by move=> [|[|a]] [|[|b]] //; rewrite ?addnS ?addSn.
Qed.

Lemma pair_peirce_dimension (e f : QxQ) :
  e \in pair_idempotents -> f \in pair_idempotents ->
  \dim (peirce_summand e f) = (e == f).
Proof.
have gt0 (g : QxQ) : g \in pair_idempotents ->
    (0 < \dim (peirce_summand g g))%N.
  move=> g_in; apply: dimv_mem_gt0 (pair_idempotents_neq0 g_in).
  apply/peirce_summandP; exists g.
  have /is_identity_decompositionP[_ idem _] := pair_idempotents_decomposition.
  by rewrite !idem.
have in1 : (1, 0) \in pair_idempotents by rewrite !inE eqxx.
have in2 : (0, 1) \in pair_idempotents by rewrite !inE eqxx orbT.
have := peirce_dimension_sum pair_idempotents_decomposition.
rewrite dimension_pair /pair_idempotents !(big_cons, big_seq1).
move: (gt0 _ in1) (gt0 _ in2) => + + + e_in f_in.
have{e_in} eE : e = (1, 0) \/ e = (0, 1).
  by move: e_in; rewrite !inE => /orP[] /eqP->; [left | right].
have{f_in} fE : f = (1, 0) \/ f = (0, 1).
  by move: f_in; rewrite !inE => /orP[] /eqP->; [left | right].
have neq : ((1, 0) == (0, 1) :> QxQ) = false by rewrite xpair_eqE oner_eq0.
case: eE fE => -> [] ->; rewrite ?eqxx ?neq 1?eq_sym ?neq;
  move: (\dim (peirce_summand (1, 0) (1, 0)))
        (\dim (peirce_summand (1, 0) (0, 1)))
        (\dim (peirce_summand (0, 1) (1, 0)))
        (\dim (peirce_summand (0, 1) (0, 1)));
  by move=> [|[|a]] [|b] [|c] [|[|d]] //;
     rewrite ?(addnS, addSn, add0n, addn0).
Qed.

Lemma pair_cartan_invariants_matrix fuel :
  (1 < fuel)%N ->
  cartan_invariants_matrix (A := QxQ) idfun id pair_idempotents fuel
  = Return (IntegerMatrix 2 2 [:: [:: 1; 0]; [:: 0; 1]] true).
Proof.
move=> lt_fuel.
have [es [ret_es _ retract_es _]] :=
  orthogonal_idempotents_spec (@idfun_radical_nilpotent QxQ) (@idK QxQ)
    pair_idempotents_decomposition.
rewrite map_id in retract_es; rewrite retract_es in ret_es.
have in1 : (1, 0) \in pair_idempotents by rewrite !inE eqxx.
have in2 : (0, 1) \in pair_idempotents by rewrite !inE eqxx orbT.
rewrite /cartan_invariants_matrix ret_es //=.
by rewrite !pair_principal_ideal_dimension // !pair_peirce_dimension.
Qed.

End PairAlgebra.

Lemma cartan_invariants_matrix_entries_witness :
  [/\ forall z : (rat^o * rat^o)%type, idfun z = 0 -> z ^+ 1 = 0,
      cancel (@id (rat^o * rat^o)%type) idfun
    & is_identity_decomposition_into_orthogonal_idempotents
        pair_idempotents]
  /\ (exists es : seq (rat^o * rat^o)%type,
    [/\ forall fuel, (1 < fuel)%N ->
          orthogonal_idempotents_central_mod_radical idfun id
            pair_idempotents fuel = Return es,
        size es = size pair_idempotents,
        forall fuel m,
          cartan_invariants_matrix idfun id pair_idempotents fuel
          = Return m ->
          [/\ is_immutable m, nrows m = size es, ncols m = size es,
              size (entries m) = size es
            & forall i j, (i < size es)%N -> (j < size es)%N ->
                size (nth [::] (entries m) i) = size es
                /\ exists c : nat,
                  [/\ nth 0 (nth [::] (entries m) i) j = Posz c,
                      (c * c
                       * (\dim (principal_ideal
                                  (nth 0%R pair_idempotents i) Left)
                          * \dim (principal_ideal
                                    (nth 0%R pair_idempotents j) Left))
                       = \dim (peirce_summand (nth 0%R es i) (nth 0%R es j))
                         * \dim (peirce_summand (nth 0%R es i) (nth 0%R es j)))%N
                    & forall ki kj : nat,
                        \dim (principal_ideal
                                (nth 0%R pair_idempotents i) Left)
                        = (ki * ki)%N ->
                        \dim (principal_ideal
                                (nth 0%R pair_idempotents j) Left)
                        = (kj * kj)%N ->
                        (c * (ki * kj))%N
                        = \dim (peirce_summand (nth 0%R es i) (nth 0%R es j))]]
      & forall fuel, (1 < fuel)%N ->
          (forall i j, (i < size es)%N -> (j < size es)%N ->
             exists2 c : nat,
               (\dim (principal_ideal (nth 0%R pair_idempotents i) Left)
                * \dim (principal_ideal
                          (nth 0%R pair_idempotents j) Left))%N != 0%N
               & (c * c
                  * (\dim (principal_ideal
                             (nth 0%R pair_idempotents i) Left)
                     * \dim (principal_ideal
                               (nth 0%R pair_idempotents j) Left))
                  = \dim (peirce_summand (nth 0%R es i) (nth 0%R es j))
                    * \dim (peirce_summand (nth 0%R es i) (nth 0%R es j)))%N) ->
          exists m,
            cartan_invariants_matrix idfun id pair_idempotents fuel
            = Return m])
  /\ cartan_invariants_matrix (A := (rat^o * rat^o)%type) idfun id
       pair_idempotents 2
     = Return (IntegerMatrix 2 2 [:: [:: 1; 0]; [:: 0; 1]] true).
Proof.
split.
  split; [exact: idfun_radical_nilpotent | exact: idK |].
  exact: pair_idempotents_decomposition.
split; last exact: pair_cartan_invariants_matrix.
exact: (cartan_invariants_matrix_entries (retract := idfun) (lift := id)
          (@idfun_radical_nilpotent _) (@idK _)
          pair_idempotents_decomposition).
Defined.

Section SolveRight.

Variables (K : fieldType) (n : nat).
Implicit Types (M : 'M[K]_n) (e v : 'cV[K]_n).

Lemma mx_solve_right_solution M e v :
  mx_solve_right M e = Some v -> M *m v = e.
Proof.
rewrite /mx_solve_right; case: ifP => // sub_eM [<-].
by apply: trmx_inj; rewrite trmx_mul trmxK mulmxKpV.
Qed.

Lemma mx_solve_right_none M e :
  mx_solve_right M e = None -> forall v, M *m v != e.
Proof.
rewrite /mx_solve_right; case: ifP => // /negP not_sub _ v.
by apply/eqP => Mv; apply: not_sub; rewrite -Mv trmx_mul submxMl.
Qed.

End SolveRight.



(* ---------------------------------------------------------------------- *)
(* Examples for the further properties                                     *)
(* ---------------------------------------------------------------------- *)

Lemma is_identity_decomposition_perm_witness :
  perm_eq [:: 0; 1 : 'Z_2] [:: 1; 0]
  /\ is_identity_decomposition_into_orthogonal_idempotents [:: 0; 1 : 'Z_2]
     = is_identity_decomposition_into_orthogonal_idempotents [:: 1 : 'Z_2; 0].
Proof.
have perm01 : perm_eq [:: 0; 1 : 'Z_2] [:: 1; 0] by [].
split; [exact: perm01 | exact: (is_identity_decomposition_perm perm01)].
Defined.

Lemma is_identity_decomposition_uniq_witness :
  is_identity_decomposition_into_orthogonal_idempotents [:: 0; 1; 0 : 'Z_2]
  /\ (uniq [seq e <- [:: 0; 1; 0 : 'Z_2] | e != 0]
      /\ forall i j, (i < 3)%N -> (j < 3)%N -> i != j ->
           nth 0 [:: 0; 1; 0 : 'Z_2] i = nth 0 [:: 0; 1; 0 : 'Z_2] j ->
           nth 0 [:: 0; 1; 0 : 'Z_2] i = 0).
Proof.
have decomp : is_identity_decomposition_into_orthogonal_idempotents
                [:: 0; 1; 0 : 'Z_2] by [].
split; [exact: decomp | exact: (is_identity_decomposition_uniq decomp)].
Defined.

Lemma idempotent_lift_idempotent_witness :
  lift_argument lift2 (inl 1) * lift_argument lift2 (inl 1)
  = lift_argument lift2 (inl 1)
  /\ (idempotent_lift mod2 lift2 1 (inl 1) = Return (lift_argument lift2 (inl 1))
      /\ idempotent_lift mod2 lift2 0 (inl 1) = Pending).
Proof.
have idem1 : lift_argument lift2 (inl 1) * lift_argument lift2 (inl 1)
             = lift_argument lift2 (inl 1) by rewrite /= mulr1.
split; [exact: idem1 | exact: (idempotent_lift_idempotent mod2 0 idem1)].
Defined.

Lemma idempotent_lift_commutes_witness :
  idempotent_lift mod2 lift2 1 (inl 1) = Return 1
  /\ [/\ refine (1 : 'Z_4) = 1,
         mod2 1 = mod2 (lift_argument lift2 (inl 1))
       & forall z : 'Z_4,
           lift_argument lift2 (inl 1) * z = z * lift_argument lift2 (inl 1) ->
           1 * z = z * 1].
Proof.
have lift1 : idempotent_lift mod2 lift2 1 (inl 1) = Return 1.
  by rewrite idempotent_liftE [lift_argument _ _]/= rmorph1 mulr1 eqxx /=
             idempotent_refine ?mulr1 ?eqxx.
split; [exact: lift1 | exact: (idempotent_lift_commutes lift1)].
Defined.

Lemma orthogonal_idempotents_retract_witness :
  [/\ forall z : 'Z_4, mod2 z = 0 -> z ^+ 2 = 0,
      cancel lift2 mod2
    & is_identity_decomposition_into_orthogonal_idempotents [:: 1 : 'Z_2]]
  /\ exists es : seq 'Z_4,
       [/\ forall fuel, (2 < fuel)%N ->
             orthogonal_idempotents_central_mod_radical mod2 lift2 [:: 1] fuel
             = Return es,
           size es = size [:: 1 : 'Z_2],
           [seq mod2 e | e <- es] = [:: 1]
         & forall i, (i < 1)%N ->
             mod2 (nth 0 es i) = nth 0 [:: 1] i
             /\ (nth 0 [:: 1 : 'Z_2] i != 0 -> nth 0 es i != 0)].
Proof.
split; first by split; [exact: mod2_radical_nilpotent | exact: lift2K |].
exact: (orthogonal_idempotents_retract mod2_radical_nilpotent lift2K
          mod2_decomposition).
Defined.

(* The matrix units of the 2 x 2 matrices. *)
Lemma delta_mx_idempotent (i : 'I_2) :
  (delta_mx i i : 'M[rat]_2) * delta_mx i i = delta_mx i i.
Proof. by rewrite -mulmxE mul_delta_mx. Qed.

Lemma delta_mx_peirce (i j : 'I_2) :
  (delta_mx i j : 'M[rat]_2) \in peirce_summand (delta_mx i i) (delta_mx j j).
Proof.
apply/peirce_summandP; exists (delta_mx i j).
by rewrite -!mulmxE !mul_delta_mx.
Qed.

Lemma delta_mx_neq0 (i j : 'I_2) : (delta_mx i j : 'M[rat]_2) != 0.
Proof.
by apply/eqP => /matrixP/(_ i j)/eqP; rewrite !mxE !eqxx oner_eq0.
Qed.

Lemma peirce_summand_fixed_points_witness :
  [/\ (delta_mx 0 0 : 'M[rat]_2) * delta_mx 0 0 = delta_mx 0 0
    & (delta_mx 1 1 : 'M[rat]_2) * delta_mx 1 1 = delta_mx 1 1]
  /\ [/\ ((delta_mx 0 1 : 'M[rat]_2)
            \in peirce_summand (delta_mx 0 0) (delta_mx 1 1))
         = (delta_mx 0 0 * delta_mx 0 1 * delta_mx 1 1
            == delta_mx 0 1 :> 'M[rat]_2),
         delta_mx 0 0 * delta_mx 0 1 * delta_mx 1 1
         = delta_mx 0 1 :> 'M[rat]_2,
         ((delta_mx 1 0 : 'M[rat]_2)
            \in peirce_summand (delta_mx 0 0) (delta_mx 1 1))
         = (delta_mx 0 0 * delta_mx 1 0 * delta_mx 1 1
            == delta_mx 1 0 :> 'M[rat]_2)
       & delta_mx 0 0 * delta_mx 1 0 * delta_mx 1 1
         != delta_mx 1 0 :> 'M[rat]_2].
Proof.
split; first by split; apply: delta_mx_idempotent.
split.
- exact: (peirce_summand_fixed_points (delta_mx 0 1)
            (delta_mx_idempotent 0) (delta_mx_idempotent 1)).
- by rewrite -!mulmxE !mul_delta_mx.
- exact: (peirce_summand_fixed_points (delta_mx 1 0)
            (delta_mx_idempotent 0) (delta_mx_idempotent 1)).
by rewrite -!mulmxE mul_delta_mx_0 // mul0mx eq_sym delta_mx_neq0.
Defined.

Lemma peirce_summand_product_witness :
  [/\ (delta_mx 0 1 : 'M[rat]_2)
        \in peirce_summand (delta_mx 0 0) (delta_mx 1 1)
    & (delta_mx 1 0 : 'M[rat]_2)
        \in peirce_summand (delta_mx 1 1) (delta_mx 0 0)]
  /\ [/\ (delta_mx 0 1 : 'M[rat]_2) * delta_mx 1 0
           \in peirce_summand (delta_mx 0 0) (delta_mx 0 0)
         /\ ((delta_mx 1 1 : 'M[rat]_2) * delta_mx 1 1 = 0 ->
             (delta_mx 0 1 : 'M[rat]_2) * delta_mx 1 0 = 0),
         (delta_mx 0 1 : 'M[rat]_2) * delta_mx 1 0 = delta_mx 0 0,
         (delta_mx 0 1 : 'M[rat]_2) * delta_mx 0 1
           \in peirce_summand (delta_mx 0 0) (delta_mx 1 1)
         /\ ((delta_mx 1 1 : 'M[rat]_2) * delta_mx 0 0 = 0 ->
             (delta_mx 0 1 : 'M[rat]_2) * delta_mx 0 1 = 0)
       & (delta_mx 1 1 : 'M[rat]_2) * delta_mx 0 0 = 0].
Proof.
split; first by split; apply: delta_mx_peirce.
split.
- exact: (peirce_summand_product (delta_mx_peirce 0 1) (delta_mx_peirce 1 0)).
- by rewrite -mulmxE mul_delta_mx.
- exact: (peirce_summand_product (delta_mx_peirce 0 1) (delta_mx_peirce 0 1)).
by rewrite -mulmxE mul_delta_mx_0.
Defined.

Lemma peirce_decomposition_dimensions_witness :
  is_identity_decomposition_into_orthogonal_idempotents diagonal_idempotents
  /\ exists2 summands,
       peirce_decomposition idfun id diagonal_idempotents 0
         (Some diagonal_idempotents) true = Return summands
       & (\sum_(row <- summands) \sum_(U <- row) \dim U)%N
         = dimension 'M[rat]_2.
Proof.
split; first exact: diagonal_idempotents_decomposition.
exact: (peirce_decomposition_dimensions idfun id diagonal_idempotents 0
          diagonal_idempotents_decomposition).
Defined.

Lemma isotypic_projective_modules_dimensions_witness :
  [/\ forall z : 'M[rat]_2, idfun z = 0 -> z ^+ 1 = 0,
      cancel (@id 'M[rat]_2) idfun
    & is_identity_decomposition_into_orthogonal_idempotents
        diagonal_idempotents]
  /\ exists modules : seq {vspace 'M[rat]_2},
       [/\ forall fuel, (1 < fuel)%N ->
             isotypic_projective_modules idfun id diagonal_idempotents fuel
               Left = Return modules,
           size modules = size diagonal_idempotents
         & (\sum_(Q <- modules) \dim Q)%N = dimension 'M[rat]_2].
Proof.
split.
  split; [exact: idfun_radical_nilpotent | exact: idK |].
  exact: diagonal_idempotents_decomposition.
exact: (isotypic_projective_modules_dimensions (retract := idfun)
          (lift := id) (@idfun_radical_nilpotent _) (@idK _)
          diagonal_idempotents_decomposition Left).
Defined.

Lemma rat_one_basis_caught :
  exists ob, try_one_basis (A := rat^o) (Return None) = Return ob.
Proof. by exists None. Qed.

Lemma rat_one_basis_unit k :
  try_one_basis (A := rat^o) (Return None) = Return (Some k) ->
  (algebra_basis rat^o)`_k = 1.
Proof. by []. Qed.

Lemma invert_returns_iff_witness :
  [/\ exists ob, try_one_basis (A := rat^o) (Return None) = Return ob,
      forall k, try_one_basis (A := rat^o) (Return None) = Return (Some k) ->
        (algebra_basis rat^o)`_k = 1,
      forall (M : 'M[rat]_(dimension rat^o)) e v,
        mx_solve_right M e = Some v -> M *m v = e,
      forall (M : 'M[rat]_(dimension rat^o)) e,
        mx_solve_right M e = None -> forall v, M *m v != e
    & 0 \in (predT : pred rat)]
  /\ (invert (Return None) predT (@mx_solve_right _ _) (2%:R : rat^o)
      = Return (2%:R^-1 : rat^o)
      <-> (2%:R : rat^o) * (2%:R^-1 : rat^o) = 1
          /\ forall i, coord (algebra_basis rat^o) i (2%:R^-1 : rat^o) \in predT).
Proof.
split.
  split=> //; [exact: rat_one_basis_caught | exact: mx_solve_right_solution
              | exact: mx_solve_right_none].
exact: (@invert_returns_iff _ _ _ predT _ rat_one_basis_caught
          rat_one_basis_unit (@mx_solve_right_solution _ _)
          (@mx_solve_right_none _ _) isT (2%:R : rat^o) (2%:R^-1 : rat^o)).
Defined.

Lemma invert_zero_divisor_witness :
  [/\ exists ob, try_one_basis (A := rat^o) (Return None) = Return ob,
      forall k, try_one_basis (A := rat^o) (Return None) = Return (Some k) ->
        (algebra_basis rat^o)`_k = 1,
      forall (M : 'M[rat]_(dimension rat^o)) e v,
        mx_solve_right M e = Some v -> M *m v = e,
      forall (M : 'M[rat]_(dimension rat^o)) e,
        mx_solve_right M e = None -> forall v, M *m v != e
    & 0 \in (predT : pred rat)]
  /\ ((1 : rat^o) != 0 /\ (0 : rat^o) * 1 = 0)
  /\ invert (Return None) predT (@mx_solve_right _ _) (0 : rat^o)
     = Raise (cannot_invert (0 : rat^o)).
Proof.
have neq10 : (1 : rat^o) != 0 by apply: oner_neq0.
have mul01 : (0 : rat^o) * 1 = 0 by rewrite mul0r.
split.
  split=> //; [exact: rat_one_basis_caught | exact: mx_solve_right_solution
              | exact: mx_solve_right_none].
split; first by split.
exact: (@invert_zero_divisor _ _ _ predT _ rat_one_basis_caught
          rat_one_basis_unit (@mx_solve_right_solution _ _)
          (@mx_solve_right_none _ _) isT (0 : rat^o) 1 neq10 mul01).
Defined.

Lemma invert_involutive_witness :
  [/\ exists ob, try_one_basis (A := rat^o) (Return None) = Return ob,
      forall k, try_one_basis (A := rat^o) (Return None) = Return (Some k) ->
        (algebra_basis rat^o)`_k = 1,
      forall (M : 'M[rat]_(dimension rat^o)) e v,
        mx_solve_right M e = Some v -> M *m v = e
    & forall (M : 'M[rat]_(dimension rat^o)) e,
        mx_solve_right M e = None -> forall v, M *m v != e]
  /\ ((invert (Return None) predT (@mx_solve_right _ _) (2%:R : rat^o)
       = Return (2%:R^-1 : rat^o) ->
       invert (Return None) predT (@mx_solve_right _ _) (2%:R^-1 : rat^o)
       = Return (2%:R : rat^o))
      /\ ((2%:R : rat^o) * (2%:R^-1 : rat^o) = 1 ->
          invert (Return None) predT (@mx_solve_right _ _) (2%:R : rat^o)
          = Return (2%:R^-1 : rat^o))).
Proof.
split.
  split=> //; [exact: rat_one_basis_caught | exact: mx_solve_right_solution
              | exact: mx_solve_right_none].
exact: (invert_involutive rat_one_basis_caught rat_one_basis_unit
          (@mx_solve_right_solution _ _) (@mx_solve_right_none _ _)
          (2%:R : rat^o) (2%:R^-1 : rat^o)).
Defined.

Lemma trace_form_matrix_trace_witness :
  (forall y i : 'I_1, uniq [seq jc.1 | jc <- [:: (ord0 : 'I_1, 1 : rat)]])
  /\ (size (trace_form_matrix (fun _ _ : 'I_1 => [:: (ord0, 1 : rat)])) = 1%N
      /\ forall y x : 'I_1,
           size (nth [::]
                   (trace_form_matrix (fun _ _ : 'I_1 => [:: (ord0, 1 : rat)]))
                   y) = 1%N
           /\ nth 0 (nth [::]
                       (trace_form_matrix
                          (fun _ _ : 'I_1 => [:: (ord0, 1 : rat)])) y) x
              = \tr (basis_on_left_matrix
                       (fun _ _ : 'I_1 => [:: (ord0, 1 : rat)]) x
                     *m basis_on_left_matrix
                          (fun _ _ : 'I_1 => [:: (ord0, 1 : rat)]) y)).
Proof.
have items_uniq (y i : 'I_1) : uniq [seq jc.1 | jc <- [:: (ord0 : 'I_1, 1 : rat)]].
  by [].
split; first exact: items_uniq.
exact: (@trace_form_matrix_trace _ _ (fun _ _ => [:: (ord0, 1)]) items_uniq).
Defined.

Lemma radical_basis_prime_field_witness :
  (2 <= 2)%N
  /\ radical_basis (F := 'F_2) true 2 (Some 2%N)
       (fun _ _ : 'I_1 => [:: (ord0, 1)]) (const_mx 1)
       (@mx_kernel_basis _) true (fun x _ => Some x) (fun _ _ => None) 1
     = radical_basis (F := 'F_2) true 2 (Some 2%N)
         (fun _ _ : 'I_1 => [:: (ord0, 1)]) (const_mx 1)
         (@mx_kernel_basis _) false (fun _ _ => None) (fun _ _ => None) 1.
Proof.
split; first by [].
exact: (@radical_basis_prime_field 'F_2 true 2 1 (fun _ _ => [:: (ord0, 1)])
          (const_mx 1) (@mx_kernel_basis _) 2 true (fun x _ => Some x)
          (fun _ _ => None) false (fun _ _ => None) (fun _ _ => None) 1
          (leqnn 2)).
Defined.

Lemma radical_basis_small_dimension_witness :
  [/\ true, (0 < 1)%N & (1 < 2)%N]
  /\ radical_basis (F := 'F_2) true 2 (Some 2%N)
       (fun _ _ : 'I_1 => [:: (ord0, 1)]) (const_mx 1)
       (@mx_kernel_basis _) true (fun x _ => Some x) (fun _ _ => None) 1
     = Return
         [seq combination c
                (regular_matrices (fun _ _ : 'I_1 => [:: (ord0, 1 : 'F_2)]))
              *m const_mx 1
         | c <- mx_kernel_basis
                  (gram_matrix 1
                     (regular_matrices
                        (fun _ _ : 'I_1 => [:: (ord0, 1 : 'F_2)]))
                     (regular_matrices
                        (fun _ _ : 'I_1 => [:: (ord0, 1 : 'F_2)])
                      ++ [:: 1%:M]))].
Proof.
split; first by [].
exact: (@radical_basis_small_dimension 'F_2 true 2 1
          (fun _ _ => [:: (ord0, 1)]) (const_mx 1) (@mx_kernel_basis _)
          (Some 2%N) true (fun x _ => Some x) (fun _ _ => None) 0
          isT isT isT).
Defined.

Lemma cellular_involution_involutive_witness :
  uniq [seq kv.1 | kv <- [:: ((0%N, 1%N, 2%N), 1 : int)]]
  /\ [/\ cellular_involution
           (cellular_involution [:: ((0%N, 1%N, 2%N), 1 : int)])
         = [:: ((0%N, 1%N, 2%N), 1 : int)],
         size (cellular_involution [:: ((0%N, 1%N, 2%N), 1 : int)])
         = size [:: ((0%N, 1%N, 2%N), 1 : int)]
       & forall mu s t : nat,
           dict_get (cellular_involution [:: ((0%N, 1%N, 2%N), 1 : int)])
             (mu, t, s) 0
           = dict_get [:: ((0%N, 1%N, 2%N), 1 : int)] (mu, s, t) 0].
Proof.
have uniq_M : uniq [seq kv.1 | kv <- [:: ((0%N, 1%N, 2%N), 1 : int)]] by [].
split; [exact: uniq_M | exact: (cellular_involution_involutive uniq_M)].
Defined.
